(** * Graph container (graph.h) and Euler-trail finder (euler.cpp)

    A shallow embedding of [DiGraph<int>], [Graph<int>], [extend_path] and
    [find_path], and the properties of them that the specification states.

    Modelling choices.
    - [std::map<int, std::map<int, size_t> > adj] is a [gmap Z (gmap Z N)];
      iteration over a [std::map] visits the keys in ascending order, which
      is [keys] below (the sorted list of the keys).
    - [int] vertex labels are [Z]: the program never computes with a label,
      it only compares labels.  [size_t] weights and degrees are [N].
    - [map::at] throws [std::out_of_range] on a missing key, and [front] or
      [back] of an empty [std::list] is undefined behaviour: results live in
      [outcome], which has one constructor for each.
    - [extend_path] is recursive and need not terminate, so it takes fuel;
      running out of fuel is a fourth outcome, [NoFuel].
    - The counter [count_odd] is an [int] that is only incremented, once per
      vertex; it is a [Z] here (a graph that holds 2^31 vertices is out of
      reach of the program). *)

From Stdlib Require Import ZArith NArith.
From stdpp Require Import gmap sorting list fin_maps strings.

Local Open Scope Z_scope.

(** ** Outcomes of a call *)

Inductive outcome (A : Type) : Type :=
  | Returns (a : A)
  | OutOfRange
  | Undefined
  | NoFuel.
Arguments Returns {A} a.
Arguments OutOfRange {A}.
Arguments Undefined {A}.
Arguments NoFuel {A}.

Definition outcome_bind {A B} (f : A → outcome B) (x : outcome A) : outcome B :=
  match x with
  | Returns a => f a
  | OutOfRange => OutOfRange
  | Undefined => Undefined
  | NoFuel => NoFuel
  end.

#[global] Instance outcome_ret : MRet outcome := @Returns.
#[global] Instance outcome_mbind : MBind outcome := @outcome_bind.
#[global] Instance outcome_fmap : FMap outcome :=
  λ A B f x, outcome_bind (λ a, Returns (f a)) x.

(** Left fold with a body that may fail, for the range-based [for] loops. *)
Fixpoint foldlM {A B} (f : B → A → outcome B) (l : list A) (b : B) : outcome B :=
  match l with
  | [] => Returns b
  | x :: l => b' ← f b x; foldlM f l b'
  end.

(** ** std::map and std::list primitives *)

(** The keys of a [std::map<int, V>] in iteration order. *)
Definition keys {V} (m : gmap Z V) : list Z :=
  merge_sort Z.le (map_to_list m).*1.

(** [m.at(k)] *)
Definition at_ {V} (m : gmap Z V) (k : Z) : outcome V :=
  match m !! k with
  | Some v => Returns v
  | None => OutOfRange
  end.

(** [m.find(k) != m.end()] *)
Definition found {V} (m : gmap Z V) (k : Z) : bool :=
  bool_decide (is_Some (m !! k)).

(** [p.front()] and [p.back()] *)
Definition front (p : list Z) : outcome Z :=
  match p with
  | x :: _ => Returns x
  | [] => Undefined
  end.

Definition back (p : list Z) : outcome Z :=
  match last p with
  | Some x => Returns x
  | None => Undefined
  end.

(** ** DiGraph<int> *)

(** The object state: the private member [adj]. *)
Abbreviation graph := (gmap Z (gmap Z N)).

Module DiGraph.

(** [adj[v]] as an rvalue: the inner map, empty when [v] was absent. *)
Definition row (g : graph) (v : Z) : gmap Z N := default ∅ (g !! v).

Definition is_vertex (g : graph) (v : Z) : bool := found g v.

(** [adj[v];] default-constructs the inner map of an absent [v]. *)
Definition add_vertex (g : graph) (v : Z) : graph :=
  match g !! v with
  | Some _ => g
  | None => <[v := ∅]> g
  end.

Definition is_edge (g : graph) (v1 v2 : Z) : outcome bool :=
  if is_vertex g v1
  then m ← at_ g v1; m' ← at_ g v1; Returns (found m v2)
  else Returns false.

Definition degree_out (g : graph) (v : Z) : outcome N :=
  m ← at_ g v; Returns (N.of_nat (size m)).

Definition neighbors (g : graph) (v : Z) : outcome (list Z) :=
  if is_vertex g v
  then m ← at_ g v; Returns (keys m)
  else Returns [].

Definition neighbors_in (g : graph) (v : Z) : list Z :=
  filter (λ a, found (row g a) v = true) (keys g).

Definition degree_in (g : graph) (v : Z) : N :=
  N.of_nat (length (neighbors_in g v)).

(** [adj[v1].erase(v2)]: the subscript creates [v1] when it is absent. *)
Definition remove_edge (g : graph) (v1 v2 : Z) : graph :=
  <[v1 := delete v2 (row g v1)]> g.

(** [add_vertex(v2); adj[v1][v2] = w;] *)
Definition update_edge (g : graph) (v1 v2 : Z) (w : N) : graph :=
  let g1 := add_vertex g v2 in
  <[v1 := <[v2 := w]> (row g1 v1)]> g1.

Definition add_edge (g : graph) (v1 v2 : Z) (w : N) : outcome graph :=
  e ← is_edge g v1 v2;
  if negb e then Returns (update_edge g v1 v2 w) else Returns g.

Definition vertices (g : graph) : list Z := keys g.

(** [for (auto& p : adj) p.second.erase(v); adj.erase(v);] *)
Definition remove (g : graph) (v : Z) : graph :=
  delete v (delete v <$> g).

Definition weight (g : graph) (v1 v2 : Z) : outcome N :=
  if is_vertex g v1
  then e ← is_edge g v1 v2;
       if (e : bool) then m ← at_ g v1; at_ m v2 else Returns 0%N
  else Returns 0%N.

End DiGraph.

(** ** Graph<int>: the undirected specialisation *)

Module Graph.

Definition add_edge (g : graph) (v1 v2 : Z) (w : N) : outcome graph :=
  g1 ← DiGraph.add_edge g v1 v2 w;
  DiGraph.add_edge g1 v2 v1 w.

Definition degree (g : graph) (v : Z) : outcome N := DiGraph.degree_out g v.

Definition remove_edge (g : graph) (v1 v2 : Z) : graph :=
  DiGraph.remove_edge (DiGraph.remove_edge g v1 v2) v2 v1.

Definition update_edge (g : graph) (v1 v2 : Z) (w : N) : graph :=
  DiGraph.update_edge (DiGraph.update_edge g v1 v2 w) v2 v1 w.

End Graph.

(** ** euler.cpp *)

(** Lines 71-78 of [extend_path]: the choice of the next vertex.  The loop
    variable [v_next] starts at 0, which also means "none found yet". *)
Definition pick (s : Z) (v_next v : Z) : Z :=
  if (v_next =? 0) && negb (v =? s) then v else v_next.

Definition next_vertex (g : graph) (p : list Z) : outcome Z :=
  u ← back p;
  nb ← DiGraph.neighbors g u;
  s ← front p;
  let v_next := fold_left (pick s) nb 0 in
  Returns (if v_next =? 0 then s else v_next).

Fixpoint extend_path (fuel : nat) (g : graph) (p : list Z)
  : outcome (graph * list Z) :=
  match fuel with
  | O => NoFuel
  | S fuel =>
      u ← back p;
      d ← Graph.degree g u;
      if (d =? 0)%N then Returns (g, p)
      else
        v_next ← next_vertex g p;
        extend_path fuel (Graph.remove_edge g u v_next) (p ++ [v_next])
  end.

(** Lines 92-100 of [find_path]: one pass over the vertices that counts the
    odd-degree ones and remembers one of them; the state is
    [(count_odd, first_odd)]. *)
Definition scan_step (g : graph) (st : Z * Z) (v : Z) : outcome (Z * Z) :=
  d ← Graph.degree g v;
  if negb (d mod 2 =? 0)%N
  then Returns (st.1 + 1, if st.2 =? 0 then v else st.2)
  else Returns st.

Definition scan_odd (g : graph) : outcome (Z * Z) :=
  foldlM (scan_step g) (DiGraph.vertices g) (0, 0).

Definition find_path (fuel : nat) (g : graph) : outcome (list Z) :=
  '(count_odd, first_odd) ← scan_odd g;
  if (count_odd =? 0) || (count_odd =? 2)
  then
    start ← (if first_odd =? 0 then front (DiGraph.vertices g)
             else Returns first_odd);
    let g_copy := g in
    '(_, p) ← extend_path fuel g_copy [start];
    Returns p
  else Returns [].

(** ** find_path and the caller's object *)

(** To speak of what [find_path] does to the graph it is given, the graph
    objects of the program are kept in a store.  The parameter
    [const Graph<int>& g] is the address of the caller's object; [g_copy] is
    a new object, built by the copy constructor and destroyed at the end of
    its block; [extend_path] writes, at every step, to the object whose
    address it was given. *)
Abbreviation store := (gmap positive graph).

Definition deref (σ : store) (l : positive) : outcome graph :=
  match σ !! l with
  | Some g => Returns g
  | None => Undefined
  end.

Fixpoint extend_path_at (fuel : nat) (σ : store) (l : positive) (p : list Z)
  : outcome (store * list Z) :=
  match fuel with
  | O => NoFuel
  | S fuel =>
      g ← deref σ l;
      u ← back p;
      d ← Graph.degree g u;
      if (d =? 0)%N then Returns (σ, p)
      else
        v_next ← next_vertex g p;
        extend_path_at fuel (<[l := Graph.remove_edge g u v_next]> σ) l
          (p ++ [v_next])
  end.

Definition find_path_at (fuel : nat) (σ : store) (l : positive)
  : outcome (list Z * store) :=
  g ← deref σ l;
  '(count_odd, first_odd) ← scan_odd g;
  if (count_odd =? 0) || (count_odd =? 2)
  then
    start ← (if first_odd =? 0 then front (DiGraph.vertices g)
             else Returns first_odd);
    let g_copy := fresh (dom σ) in
    '(σ', p) ← extend_path_at fuel (<[g_copy := g]> σ) g_copy [start];
    Returns (p, delete g_copy σ')
  else Returns ([], σ).

(** The sample graphs of [main]. *)
Definition build (es : list (Z * Z)) : outcome graph :=
  foldlM (λ g e, Graph.add_edge g e.1 e.2 1%N) es ∅.

Definition sample1 : list (Z * Z) :=
  [(1,2);(1,3);(1,4);(1,5);(2,3);(2,5);(2,6);(3,6);(3,7);(4,5);(5,6);(6,7)].

Definition sample2 : list (Z * Z) :=
  [(1,2);(1,4);(2,3);(2,4);(3,5);(4,5)].

Definition sample3 : list (Z * Z) :=
  [(1,2);(1,3);(1,4);(1,5);(2,3);(2,5);(3,6);(4,5);(4,6);(5,6)].

(** Two more graphs, used below. *)

(** The path 0 - 1 - 2. *)
Definition path012 : list (Z * Z) := [(0,1);(1,2)].

(** Two triangles, 1 - 2 - 3 and 2 - 4 - 5, that share the vertex 2. *)
Definition bowtie : list (Z * Z) := [(1,2);(1,3);(2,3);(2,4);(2,5);(4,5)].

(** ** Sequences of calls on an undirected graph *)

Inductive op : Type :=
  | AddVertex (v : Z)
  | AddEdge (v1 v2 : Z) (w : N)
  | UpdateEdge (v1 v2 : Z) (w : N)
  | RemoveEdge (v1 v2 : Z)
  | Remove (v : Z).

Definition apply_op (g : graph) (o : op) : outcome graph :=
  match o with
  | AddVertex v => Returns (DiGraph.add_vertex g v)
  | AddEdge v1 v2 w => Graph.add_edge g v1 v2 w
  | UpdateEdge v1 v2 w => Returns (Graph.update_edge g v1 v2 w)
  | RemoveEdge v1 v2 => Returns (Graph.remove_edge g v1 v2)
  | Remove v => Returns (DiGraph.remove g v)
  end.

Definition run (ops : list op) : outcome graph := foldlM apply_op ops ∅.

(** ** Notions the properties are stated with *)

(** The entry of [adj] for the pair [(a, b)], if any. *)
Definition entry (g : graph) (a b : Z) : option N := DiGraph.row g a !! b.

(** Number of outgoing entries of [v], 0 for an absent [v]. *)
Definition deg (g : graph) (v : Z) : N := N.of_nat (size (DiGraph.row g v)).

Definition odd_vertices (g : graph) : list Z :=
  filter (λ v, N.odd (deg g v) = true) (DiGraph.vertices g).

Definition num_odd (g : graph) : nat := length (odd_vertices g).

(** Every edge is stored in both directions with one weight. *)
Definition symmetric (g : graph) : Prop := ∀ a b, entry g a b = entry g b a.

(** The label 0 names no vertex and no end of an edge. *)
Definition zero_free (g : graph) : Prop :=
  g !! 0 = None ∧ ∀ a, entry g a 0 = None.

(** The undirected edge between [a] and [b], smaller end first. *)
Definition undirected (a b : Z) : Z * Z := (Z.min a b, Z.max a b).

(** The undirected edges walked by a trail, in order. *)
Fixpoint trail_edges (p : list Z) : list (Z * Z) :=
  match p with
  | a :: ((b :: _) as q) => undirected a b :: trail_edges q
  | _ => []
  end.

(** The undirected edges of a graph, each listed once. *)
Definition graph_edges (g : graph) : list (Z * Z) :=
  a ← DiGraph.vertices g;
  b ← filter (λ b, a ≤ b) (keys (DiGraph.row g a));
  [(a, b)].

(** The trail uses every edge of the graph once and nothing else. *)
Definition covers (g : graph) (p : list Z) : Prop :=
  trail_edges p ≡ₚ graph_edges g.

(** All vertices that have an edge are linked to one another by edges. *)
Definition adjacent (g : graph) (a b : Z) : Prop := is_Some (entry g a b).

Definition connected (g : graph) : Prop :=
  ∀ a b, deg g a ≠ 0%N → deg g b ≠ 0%N → rtc (adjacent g) a b.

(** The ends of every edge are vertices. *)
Definition closed (g : graph) : Prop :=
  ∀ a b, is_Some (entry g a b) → is_Some (g !! b).

(** The number of entries of [adj], over all vertices. *)
Definition entries (g : graph) : nat :=
  map_fold (λ _ (m : gmap Z N) n, (size m + n)%nat) 0%nat g.

(** What the scan remembers: the first odd-degree vertex whose label is not
    0, or 0 when there is none. *)
Definition first_nonzero (l : list Z) : Z :=
  default 0 (head (filter (λ v, v ≠ 0) l)).

(** What the specification gives as the start of the trail. *)
Definition expected_start (g : graph) : option Z :=
  if decide (num_odd g = 0%nat) then head (DiGraph.vertices g)
  else head (odd_vertices g).

(** The first of the neighbours [nb] that is not the start [s], or [s] when
    there is no other. *)
Definition first_other (s : Z) (nb : list Z) : Z :=
  default s (head (filter (λ v, v ≠ s) nb)).


(** ** Sequences of calls on a directed graph *)

Definition apply_directed (g : graph) (o : op) : outcome graph :=
  match o with
  | AddVertex v => Returns (DiGraph.add_vertex g v)
  | AddEdge v1 v2 w => DiGraph.add_edge g v1 v2 w
  | UpdateEdge v1 v2 w => Returns (DiGraph.update_edge g v1 v2 w)
  | RemoveEdge v1 v2 => Returns (DiGraph.remove_edge g v1 v2)
  | Remove v => Returns (DiGraph.remove g v)
  end.

Definition run_directed (ops : list op) : outcome graph :=
  foldlM apply_directed ops ∅.

(** No vertex is joined to itself. *)
Definition loop_free (g : graph) : Prop := ∀ a, entry g a a = None.

(** The odd-degree vertices are [c] and [t] when these differ, and there is
    none when they are the same vertex. *)
Definition ends_odd (g : graph) (c t : Z) : Prop :=
  ∀ x, N.odd (deg g x) = true ↔ (x = c ∧ x ≠ t) ∨ (x ≠ c ∧ x = t).

(** ** Output *)

(** What a function writes to a [std::ostream]: the values inserted with
    [<<], in order, after what the stream held before.  How the stream
    formats a number is not modelled. *)
Inductive item : Type :=
  | Text (s : string)
  | Int (v : Z)
  | Size (n : N)
  | Endl.

(** The string of two newline characters. *)
Definition two_newlines : string :=
  String (Ascii.ascii_of_nat 10) (String (Ascii.ascii_of_nat 10) EmptyString).

(** Lines 278-281 of graph.h: the body of the inner loop of [operator<<]. *)
Definition dump_edge (g : graph) (v1 : Z) (os : list item) (v2 : Z)
  : outcome (list item) :=
  e ← DiGraph.is_edge g v1 v2;
  if (e : bool)
  then w ← DiGraph.weight g v1 v2;
       Returns (os ++ [Text " "; Int v2; Text "("; Size w; Text ")"])
  else Returns os.

(** Lines 276-283 of graph.h: the body of the outer loop. *)
Definition dump_row (g : graph) (vlist : list Z) (os : list item) (v1 : Z)
  : outcome (list item) :=
  os' ← foldlM (dump_edge g v1) vlist (os ++ [Int v1; Text ":"]);
  Returns (os' ++ [Endl]).

(** [operator<<] for a graph. *)
Definition dump (g : graph) (os : list item) : outcome (list item) :=
  let vlist := DiGraph.vertices g in
  foldlM (dump_row g vlist) vlist
    (os ++ [Text "Vertex count: "; Size (N.of_nat (length vlist)); Endl]).

(** [print_path] *)
Definition print_path (p : list Z) (os : list item) : list item :=
  let os1 := os ++ [Text "Euler Path: "] in
  let os2 :=
    if negb (N.of_nat (length p) =? 0)%N
    then fold_left (λ o v, o ++ [Text " "; Int v]) p os1
    else os1 ++ [Text "none."] in
  os2 ++ [Text two_newlines].

(** The vertices among the items written. *)
Definition ints (os : list item) : list Z :=
  os ≫= λ x, match x with Int v => [v] | _ => [] end.

(** What the dump of a graph shows for the vertex [v1]: its neighbours in
    ascending order, each with the weight of the edge. *)
Definition row_items (g : graph) (v1 : Z) : list item :=
  [Int v1; Text ":"] ++
  (keys (DiGraph.row g v1) ≫= λ v2,
     [Text " "; Int v2; Text "("; Size (default 0%N (entry g v1 v2)); Text ")"]) ++
  [Endl].

(** * Properties *)

(** ** Iteration order of a map *)

Section keys.
Context {V : Type}.
Implicit Types m : gmap Z V.

Lemma elem_of_keys m k : k ∈ keys m ↔ is_Some (m !! k).
Proof.
  unfold keys. rewrite merge_sort_Permutation, list_elem_of_fmap. split.
  - intros [[k' v] [-> Hin]]. apply elem_of_map_to_list in Hin. eauto.
  - intros [v Hv]. exists (k, v). split; [done | by apply elem_of_map_to_list].
Qed.

Lemma keys_NoDup m : NoDup (keys m).
Proof. unfold keys. rewrite merge_sort_Permutation. apply NoDup_fst_map_to_list. Qed.

Lemma keys_ascending m : Sorted Z.le (keys m).
Proof. apply (Sorted_merge_sort Z.le). Qed.

Lemma keys_length m : length (keys m) = size m.
Proof.
  unfold keys. rewrite merge_sort_Permutation, length_fmap.
  apply length_map_to_list.
Qed.

Lemma keys_empty : keys (∅ : gmap Z V) = [].
Proof. unfold keys. by rewrite map_to_list_empty. Qed.

Lemma keys_nil m : keys m = [] → m = ∅.
Proof.
  intros Hk. apply map_size_empty_inv. by rewrite <- keys_length, Hk.
Qed.
End keys.

(** ** Queries as total functions of the adjacency entries *)

Lemma row_Some g v m : g !! v = Some m → DiGraph.row g v = m.
Proof. unfold DiGraph.row. by intros ->. Qed.

Lemma row_None g v : g !! v = None → DiGraph.row g v = ∅.
Proof. unfold DiGraph.row. by intros ->. Qed.

Lemma is_vertex_true g v : DiGraph.is_vertex g v = true ↔ is_Some (g !! v).
Proof. unfold DiGraph.is_vertex, found. apply bool_decide_eq_true. Qed.

Lemma is_vertex_false g v : DiGraph.is_vertex g v = false ↔ g !! v = None.
Proof.
  unfold DiGraph.is_vertex, found. rewrite bool_decide_eq_false.
  by rewrite eq_None_not_Some.
Qed.

Lemma found_entry g a b :
  found (DiGraph.row g a) b = bool_decide (is_Some (entry g a b)).
Proof. done. Qed.

Lemma is_edge_total g a b :
  DiGraph.is_edge g a b = Returns (found (DiGraph.row g a) b).
Proof.
  unfold DiGraph.is_edge, DiGraph.is_vertex, found at 1, at_, DiGraph.row.
  by destruct (g !! a) as [m|] eqn:Ha.
Qed.

Lemma weight_total g a b :
  DiGraph.weight g a b = Returns (default 0%N (entry g a b)).
Proof.
  unfold DiGraph.weight. rewrite is_edge_total. unfold entry.
  unfold DiGraph.is_vertex, found, at_, DiGraph.row.
  destruct (g !! a) as [m|] eqn:Ha; simpl; [| done].
  by destruct (m !! b) as [w|] eqn:Hb.
Qed.

Lemma neighbors_total g v :
  DiGraph.neighbors g v = Returns (keys (DiGraph.row g v)).
Proof.
  unfold DiGraph.neighbors, DiGraph.is_vertex, found, at_, DiGraph.row.
  by destruct (g !! v) as [m|] eqn:Hv.
Qed.

Lemma degree_out_vertex g v :
  is_Some (g !! v) → DiGraph.degree_out g v = Returns (deg g v).
Proof. intros [m Hm]. unfold DiGraph.degree_out, deg, at_, DiGraph.row. by rewrite Hm. Qed.

Lemma degree_out_absent g v :
  g !! v = None → DiGraph.degree_out g v = OutOfRange.
Proof. intros Hv. unfold DiGraph.degree_out, at_. by rewrite Hv. Qed.

Lemma symmetric_closed g : symmetric g → closed g.
Proof.
  intros Hs a b Hab. rewrite Hs in Hab. unfold entry, DiGraph.row in Hab.
  destruct (g !! b); [eauto |]. simpl in Hab. rewrite lookup_empty in Hab.
  by destruct Hab.
Qed.

(** C9: on a vertex [v] that is not in the graph, [degree_out] and [degree]
    throw [std::out_of_range], while [neighbors] returns the empty list and
    [is_edge] and [weight] return [false] and 0, for [v] as the first end of
    the pair, and also as the second end when the ends of all edges are
    vertices. *)
Theorem absent_vertex_queries (g : graph) (v : Z) :
  DiGraph.is_vertex g v = false →
  DiGraph.degree_out g v = OutOfRange ∧
  Graph.degree g v = OutOfRange ∧
  DiGraph.neighbors g v = Returns [] ∧
  ∀ x, DiGraph.is_edge g v x = Returns false ∧
       DiGraph.weight g v x = Returns 0%N ∧
       (closed g → DiGraph.is_edge g x v = Returns false ∧
                   DiGraph.weight g x v = Returns 0%N).
Proof.
  intros Hv%is_vertex_false.
  assert (Hrow : DiGraph.row g v = ∅) by by apply row_None.
  split_and!.
  - by apply degree_out_absent.
  - by apply degree_out_absent.
  - by rewrite neighbors_total, Hrow, keys_empty.
  - intros x. rewrite !is_edge_total, !weight_total, !found_entry.
    assert (Hvx : entry g v x = None) by (unfold entry; by rewrite Hrow).
    rewrite Hvx. split_and!; try done.
    intros Hc. destruct (entry g x v) as [w|] eqn:Hxv; [| done].
    destruct (Hc x v) as [m Hm]; [by rewrite Hxv | congruence].
Qed.

Lemma absent_vertex_queries_witness :
  DiGraph.degree_out {[1 := ∅]} 7 = OutOfRange ∧
  DiGraph.neighbors {[1 := ∅]} 7 = Returns [] ∧
  DiGraph.is_edge {[1 := ∅]} 7 1 = Returns false ∧
  DiGraph.weight {[1 := ∅]} 1 7 = Returns 0%N.
Proof.
  destruct (absent_vertex_queries {[1 := ∅]} 7) as (H1 & _ & H3 & H4);
    [reflexivity |].
  destruct (H4 1) as (H5 & _ & H6).
  destruct H6 as [_ H7]; [| done].
  intros a b [w Hw]. unfold entry, DiGraph.row in Hw.
  destruct (decide (a = 1)) as [->|Hne].
  - rewrite lookup_singleton_eq in Hw. simpl in Hw.
    by rewrite lookup_empty in Hw.
  - rewrite lookup_singleton_ne in Hw by done. simpl in Hw.
    by rewrite lookup_empty in Hw.
Defined.

(** ** Effect of the mutators on the adjacency entries *)

Lemma row_add_vertex g v a : DiGraph.row (DiGraph.add_vertex g v) a = DiGraph.row g a.
Proof.
  unfold DiGraph.add_vertex, DiGraph.row.
  destruct (g !! v) eqn:Hv; [done |].
  destruct (decide (a = v)) as [->|Hne].
  - by rewrite lookup_insert_eq, Hv.
  - by rewrite lookup_insert_ne.
Qed.

Lemma is_vertex_add_vertex g v a :
  is_Some (DiGraph.add_vertex g v !! a) ↔ a = v ∨ is_Some (g !! a).
Proof.
  unfold DiGraph.add_vertex. destruct (g !! v) eqn:Hv.
  - split; [eauto |]. intros [->|?]; [rewrite Hv; eauto | done].
  - rewrite lookup_insert_is_Some. destruct (decide (v = a)); naive_solver.
Qed.

Lemma entry_add_vertex g v a b : entry (DiGraph.add_vertex g v) a b = entry g a b.
Proof. unfold entry. by rewrite row_add_vertex. Qed.

Lemma entry_remove_edge g v1 v2 a b :
  entry (DiGraph.remove_edge g v1 v2) a b =
  if decide (a = v1 ∧ b = v2) then None else entry g a b.
Proof.
  unfold entry, DiGraph.remove_edge, DiGraph.row at 1.
  destruct (decide (a = v1)) as [->|Ha].
  - rewrite lookup_insert_eq. simpl. rewrite lookup_delete.
    repeat case_decide; naive_solver.
  - rewrite lookup_insert_ne by done. case_decide; naive_solver.
Qed.

Lemma entry_update_edge g v1 v2 w a b :
  entry (DiGraph.update_edge g v1 v2 w) a b =
  if decide (a = v1 ∧ b = v2) then Some w else entry g a b.
Proof.
  unfold entry, DiGraph.update_edge, DiGraph.row at 1.
  destruct (decide (a = v1)) as [->|Ha].
  - rewrite lookup_insert_eq. simpl. rewrite lookup_insert, row_add_vertex.
    repeat case_decide; naive_solver.
  - rewrite lookup_insert_ne by done. fold (DiGraph.row (DiGraph.add_vertex g v2) a).
    rewrite row_add_vertex. case_decide; naive_solver.
Qed.

Lemma entry_remove g v a b :
  entry (DiGraph.remove g v) a b =
  if decide (a = v ∨ b = v) then None else entry g a b.
Proof.
  unfold entry, DiGraph.remove, DiGraph.row.
  destruct (decide (a = v)) as [->|Ha].
  - rewrite lookup_delete_eq. simpl. rewrite lookup_empty.
    case_decide; naive_solver.
  - rewrite lookup_delete_ne, lookup_fmap by done.
    destruct (g !! a) as [m|]; simpl.
    + rewrite lookup_delete. repeat case_decide; naive_solver.
    + rewrite lookup_empty. by case_decide.
Qed.

Lemma add_edge_total g v1 v2 w :
  DiGraph.add_edge g v1 v2 w =
  Returns (match entry g v1 v2 with
           | Some _ => g
           | None => DiGraph.update_edge g v1 v2 w
           end).
Proof.
  unfold DiGraph.add_edge. rewrite is_edge_total, found_entry. simpl.
  by destruct (entry g v1 v2).
Qed.

(** Where [remove_edge] does leave the graph alone: the first end is a
    vertex and the edge is missing. *)
Lemma remove_edge_missing_edge g v1 v2 :
  is_Some (g !! v1) → entry g v1 v2 = None → DiGraph.remove_edge g v1 v2 = g.
Proof.
  intros [m Hm] He. unfold DiGraph.remove_edge.
  unfold entry in He. rewrite (row_Some _ _ _ Hm) in He |- *.
  rewrite delete_id by done. by apply insert_id.
Qed.

(** C4 (the code departs from it): removing the missing edge (1, 2) from the
    empty graph does not leave the graph unchanged.  The directed
    [remove_edge] makes 1 a vertex, the undirected one makes both 1 and 2
    vertices. *)
Theorem remove_edge_creates_vertices :
  DiGraph.is_edge ∅ 1 2 = Returns false ∧
  DiGraph.is_vertex ∅ 1 = false ∧
  DiGraph.is_vertex (DiGraph.remove_edge ∅ 1 2) 1 = true ∧
  DiGraph.vertices (DiGraph.remove_edge ∅ 1 2) = [1] ∧
  DiGraph.vertices (Graph.remove_edge ∅ 1 2) = [1; 2] ∧
  DiGraph.remove_edge ∅ 1 2 ≠ ∅ ∧
  Graph.remove_edge ∅ 1 2 ≠ ∅.
Proof.
  split_and!; by vm_compute.
Qed.

(** ** Symmetry of the undirected graph *)

Lemma symmetric_empty : symmetric ∅.
Proof. done. Qed.

Lemma symmetric_add_vertex g v : symmetric g → symmetric (DiGraph.add_vertex g v).
Proof. intros Hs a b. by rewrite !entry_add_vertex. Qed.

Lemma symmetric_update_edge g v1 v2 w :
  symmetric g → symmetric (Graph.update_edge g v1 v2 w).
Proof.
  intros Hs a b. unfold Graph.update_edge. rewrite !entry_update_edge, (Hs a b).
  repeat case_decide; naive_solver.
Qed.

Lemma symmetric_remove_edge g v1 v2 :
  symmetric g → symmetric (Graph.remove_edge g v1 v2).
Proof.
  intros Hs a b. unfold Graph.remove_edge. rewrite !entry_remove_edge, (Hs a b).
  repeat case_decide; naive_solver.
Qed.

Lemma symmetric_remove g v : symmetric g → symmetric (DiGraph.remove g v).
Proof.
  intros Hs a b. rewrite !entry_remove, (Hs a b).
  repeat case_decide; naive_solver.
Qed.

Lemma symmetric_add_edge g v1 v2 w :
  symmetric g →
  ∃ g', Graph.add_edge g v1 v2 w = Returns g' ∧ symmetric g'.
Proof.
  intros Hs. unfold Graph.add_edge. rewrite add_edge_total. simpl.
  rewrite add_edge_total. eexists; split; [done |].
  destruct (entry g v1 v2) as [w'|] eqn:H12.
  - rewrite (Hs v2 v1), H12. done.
  - rewrite entry_update_edge.
    destruct (decide (v2 = v1 ∧ v1 = v2)) as [[-> _]|Hne].
    + intros a b. rewrite !entry_update_edge, (Hs a b).
      repeat case_decide; naive_solver.
    + rewrite (Hs v2 v1), H12. by apply symmetric_update_edge.
Qed.

Lemma apply_op_symmetric g o :
  symmetric g → ∃ g', apply_op g o = Returns g' ∧ symmetric g'.
Proof.
  intros Hs. destruct o; simpl;
    eauto using symmetric_add_vertex, symmetric_add_edge,
      symmetric_update_edge, symmetric_remove_edge, symmetric_remove.
Qed.

Lemma foldlM_apply_op_symmetric ops g :
  symmetric g → ∃ g', foldlM apply_op ops g = Returns g' ∧ symmetric g'.
Proof.
  revert g. induction ops as [|o ops IH]; intros g Hs; simpl; [eauto |].
  destruct (apply_op_symmetric g o Hs) as (g1 & -> & Hs1). simpl. eauto.
Qed.

(** C5: every sequence of undirected calls [add_vertex], [add_edge],
    [update_edge], [remove_edge] and [remove] on an empty graph runs to the
    end without an exception, and in the graph it builds [is_edge(a,b)]
    equals [is_edge(b,a)], and [weight(a,b)] equals [weight(b,a)] when the
    edge exists. *)
Theorem undirected_edge_symmetry (ops : list op) (a b : Z) :
  ∃ g, run ops = Returns g ∧
       DiGraph.is_edge g a b = DiGraph.is_edge g b a ∧
       (DiGraph.is_edge g a b = Returns true →
        DiGraph.weight g a b = DiGraph.weight g b a).
Proof.
  destruct (foldlM_apply_op_symmetric ops ∅ symmetric_empty) as (g & Hrun & Hs).
  exists g. split; [done |].
  rewrite !is_edge_total, !weight_total, !found_entry, (Hs a b). done.
Qed.

Lemma undirected_edge_symmetry_witness :
  ∃ g, run [AddEdge 1 2 5; UpdateEdge 2 3 7; Remove 3; AddEdge 2 1 9] = Returns g ∧
       DiGraph.is_edge g 1 2 = Returns true ∧
       DiGraph.weight g 1 2 = DiGraph.weight g 2 1.
Proof.
  destruct (undirected_edge_symmetry
              [AddEdge 1 2 5; UpdateEdge 2 3 7; Remove 3; AddEdge 2 1 9] 1 2)
    as (g & Hrun & _ & Hw).
  exists g. split; [done |].
  assert (He : DiGraph.is_edge g 1 2 = Returns true).
  { vm_compute in Hrun. injection Hrun as <-. by vm_compute. }
  split; [done | by apply Hw].
Defined.

(** ** The scan for odd-degree vertices *)

Lemma odd_test (d : N) : negb (d mod 2 =? 0)%N = N.odd d.
Proof.
  rewrite <- N.bit0_odd, N.bit0_eqb.
  assert (d mod 2 < 2)%N by (apply N.mod_upper_bound; lia).
  generalize dependent (d mod 2)%N. intros x Hx.
  destruct x as [|[?|?|]]; try done; lia.
Qed.

Lemma scan_step_vertex g st v :
  is_Some (g !! v) →
  scan_step g st v =
  Returns (if N.odd (deg g v)
           then (st.1 + 1, if st.2 =? 0 then v else st.2)
           else st).
Proof.
  intros Hv. unfold scan_step, Graph.degree.
  rewrite degree_out_vertex by done. simpl. rewrite odd_test.
  by destruct (N.odd (deg g v)).
Qed.

Lemma scan_fold g l c f :
  (∀ v, v ∈ l → is_Some (g !! v)) →
  foldlM (scan_step g) l (c, f) =
  Returns (c + Z.of_nat (length (filter (λ v, N.odd (deg g v) = true) l)),
           if f =? 0
           then first_nonzero (filter (λ v, N.odd (deg g v) = true) l)
           else f).
Proof.
  revert c f. induction l as [|v l IH]; intros c f Hl.
  - simpl. rewrite Z.add_0_r. unfold first_nonzero. simpl. by destruct (Z.eqb_spec f 0) as [->|].
  - simpl. rewrite scan_step_vertex by (apply Hl; left).
    simpl. rewrite filter_cons. destruct (N.odd (deg g v)) eqn:Hodd.
    + rewrite decide_True by done. rewrite IH by (intros; apply Hl; by right).
      simpl. f_equal. f_equal; [lia |].
      unfold first_nonzero. rewrite filter_cons.
      destruct (Z.eqb_spec f 0) as [->|Hf]; [| by rewrite (proj2 (Z.eqb_neq f 0))].
      destruct (decide (v ≠ 0)) as [Hv|Hv].
      * by rewrite (proj2 (Z.eqb_neq v 0)).
      * assert (v = 0) as -> by lia. done.
    + rewrite decide_False by congruence. simpl.
      by rewrite IH by (intros; apply Hl; by right).
Qed.

Lemma scan_odd_total g :
  scan_odd g = Returns (Z.of_nat (num_odd g), first_nonzero (odd_vertices g)).
Proof.
  unfold scan_odd. rewrite scan_fold; [done |].
  intros v Hv. by apply elem_of_keys.
Qed.

(** ** Fuel *)

Lemma extend_path_fuel_S n g p r :
  extend_path n g p = Returns r → extend_path (S n) g p = Returns r.
Proof.
  revert g p. induction n as [|n IH]; intros g p; [done |].
  intros H. change (extend_path (S n) g p) with
    (u ← back p; d ← Graph.degree g u;
     if (d =? 0)%N then Returns (g, p)
     else v_next ← next_vertex g p;
          extend_path n (Graph.remove_edge g u v_next) (p ++ [v_next])) in H.
  change (extend_path (S (S n)) g p) with
    (u ← back p; d ← Graph.degree g u;
     if (d =? 0)%N then Returns (g, p)
     else v_next ← next_vertex g p;
          extend_path (S n) (Graph.remove_edge g u v_next) (p ++ [v_next])).
  destruct (back p) as [u| | |]; try done. simpl in *.
  destruct (Graph.degree g u) as [d| | |]; try done. simpl in *.
  destruct (d =? 0)%N; [done |].
  destruct (next_vertex g p) as [v| | |]; try done. simpl in *.
  by apply IH.
Qed.

Lemma extend_path_fuel_le n m g p r :
  (n ≤ m)%nat → extend_path n g p = Returns r → extend_path m g p = Returns r.
Proof.
  induction 1 as [|m _ IH]; [done |]. intros H. by apply extend_path_fuel_S, IH.
Qed.

Lemma find_path_fuel_le n m g p :
  (n ≤ m)%nat → find_path n g = Returns p → find_path m g = Returns p.
Proof.
  intros Hle. unfold find_path. rewrite scan_odd_total. simpl.
  destruct (_ || _); [| done].
  destruct (if first_nonzero _ =? 0 then _ else _) as [s| | |]; try done. simpl.
  destruct (extend_path n g [s]) as [[g' q]| | |] eqn:He; try done.
  by rewrite (extend_path_fuel_le _ _ _ _ _ Hle He).
Qed.

Lemma find_path_functional n m g p q :
  find_path n g = Returns p → find_path m g = Returns q → p = q.
Proof.
  intros Hp Hq. destruct (Nat.le_ge_cases n m) as [Hle|Hle].
  - rewrite (find_path_fuel_le _ _ _ _ Hle Hp) in Hq. congruence.
  - rewrite (find_path_fuel_le _ _ _ _ Hle Hq) in Hp. congruence.
Qed.

(** ** Graphs without a trail *)

Lemma find_path_ineligible fuel g :
  num_odd g ≠ 0%nat → num_odd g ≠ 2%nat → find_path fuel g = Returns [].
Proof.
  intros H0 H2. unfold find_path. rewrite scan_odd_total. simpl.
  destruct (Z.eqb_spec (Z.of_nat (num_odd g)) 0); [lia |].
  destruct (Z.eqb_spec (Z.of_nat (num_odd g)) 2); [lia |]. done.
Qed.

(** C6: when the number of odd-degree vertices is neither 0 nor 2,
    [find_path] returns the empty list; the third sample graph of [main]
    has 4 odd-degree vertices and gets the empty list. *)
Theorem find_path_none :
  (∀ fuel g, num_odd g ≠ 0%nat → num_odd g ≠ 2%nat →
             find_path fuel g = Returns []) ∧
  (∃ g3, build sample3 = Returns g3 ∧ num_odd g3 = 4%nat ∧
         ∀ fuel, find_path fuel g3 = Returns []).
Proof.
  split; [apply find_path_ineligible |].
  eexists. split; [by vm_compute |]. split; [by vm_compute |].
  intros fuel. apply find_path_ineligible; by vm_compute.
Qed.

Lemma find_path_none_witness :
  find_path 0 {[1 := {[2 := 1%N]}; 2 := {[1 := 1%N]};
                3 := {[4 := 1%N]}; 4 := {[3 := 1%N]}]} = Returns [].
Proof.
  apply (proj1 find_path_none); by vm_compute.
Defined.

(** ** The first sample graph of [main] *)

(** C7: on the 7-vertex graph with the 12 edges of [sample1], where every
    degree is even, [find_path] returns a trail of 13 vertices that starts
    and ends at vertex 1 and whose 12 consecutive pairs are the edges of the
    graph, each once. *)
Theorem find_path_sample1 :
  ∃ g1 p,
    build sample1 = Returns g1 ∧
    DiGraph.vertices g1 = [1; 2; 3; 4; 5; 6; 7] ∧
    graph_edges g1 = sample1 ∧
    odd_vertices g1 = [] ∧
    (∀ k, find_path (13 + k) g1 = Returns p) ∧
    length p = 13%nat ∧
    head p = Some 1 ∧ last p = Some 1 ∧
    length (trail_edges p) = 12%nat ∧
    covers g1 p.
Proof.
  eexists. exists [1; 2; 3; 6; 2; 5; 4; 1; 3; 7; 6; 5; 1].
  split; [by vm_compute |]. split; [by vm_compute |].
  split; [by vm_compute |]. split; [by vm_compute |].
  split.
  { intros k. apply (find_path_fuel_le 13); [lia | by vm_compute]. }
  split_and!; try done.
  unfold covers. apply (bool_decide_unpack _). by vm_compute.
Qed.

(** ** Determinism *)


(** ** The choice of the next vertex *)

Lemma filter_agree {A} (P Q : A → Prop) `{!∀ x, Decision (P x)}
    `{!∀ x, Decision (Q x)} (l : list A) :
  (∀ x, x ∈ l → P x ↔ Q x) → filter P l = filter Q l.
Proof.
  induction l as [|x l IH]; intros Hl; [done |].
  rewrite !filter_cons, IH by (intros; apply Hl; by right).
  pose proof (Hl x (list_elem_of_here x l)).
  repeat case_decide; naive_solver.
Qed.

(** The loop of [extend_path] keeps the first neighbour that is neither the
    start nor 0; it ends on 0 when there is none. *)
Lemma fold_pick s nb acc :
  fold_left (pick s) nb acc =
  if acc =? 0 then default 0 (head (filter (λ v, v ≠ 0 ∧ v ≠ s) nb)) else acc.
Proof.
  revert acc. induction nb as [|v nb IH]; intros acc; simpl.
  - by destruct (Z.eqb_spec acc 0).
  - rewrite IH, filter_cons. unfold pick.
    destruct (Z.eqb_spec acc 0) as [->|Hacc]; simpl.
    + destruct (Z.eqb_spec v s) as [->|Hvs]; simpl.
      * by rewrite decide_False by naive_solver.
      * destruct (Z.eqb_spec v 0) as [->|Hv0].
        -- by rewrite decide_False by naive_solver.
        -- by rewrite decide_True by naive_solver.
    + by rewrite (proj2 (Z.eqb_neq acc 0)).
Qed.

Lemma next_vertex_total g p u s :
  last p = Some u → head p = Some s →
  next_vertex g p =
  Returns (default s (head (filter (λ v, v ≠ 0 ∧ v ≠ s)
                              (keys (DiGraph.row g u))))).
Proof.
  intros Hu Hs. unfold next_vertex, back, front. rewrite Hu. simpl.
  rewrite neighbors_total. simpl.
  destruct p as [|s' p]; [done |]. injection Hs as ->. simpl.
  rewrite fold_pick. simpl.
  destruct (head _) as [v|] eqn:Hhd; simpl; [| done].
  apply head_Some_elem_of, list_elem_of_filter in Hhd as [[Hv _] _].
  by rewrite (proj2 (Z.eqb_neq v 0)).
Qed.

Lemma head_filter_elem {A} (P : A → Prop) `{!∀ x, Decision (P x)} l x :
  head (filter P l) = Some x → P x ∧ x ∈ l.
Proof. intros Hh%head_Some_elem_of. by apply list_elem_of_filter in Hh. Qed.

(** A duplicate-free list all of whose elements are [s] is [[s]] or empty. *)
Lemma NoDup_all_equal (s : Z) (l : list Z) :
  NoDup l → (∀ x, x ∈ l → x = s) → l ≠ [] → l = [s].
Proof.
  intros Hnd Hall Hne. destruct l as [|x [|y l]]; [done | |].
  - by rewrite (Hall x) by left.
  - exfalso. apply NoDup_cons in Hnd as [Hx _]. apply Hx.
    rewrite (Hall x) by left. rewrite <- (Hall y) by (right; left). left.
Qed.

Lemma first_other_sole s nb :
  NoDup nb → nb ≠ [] → first_other s nb = s → nb = [s].
Proof.
  unfold first_other. intros Hnd Hne Hv. apply NoDup_all_equal; [done | | done].
  intros x Hx. destruct (decide (x = s)) as [|Hxs]; [done |].
  destruct (head (filter (λ v, v ≠ s) nb)) as [v|] eqn:Hhd.
  - apply head_filter_elem in Hhd as [Hvs _]. simpl in Hv. done.
  - apply head_None in Hhd. exfalso. revert Hx.
    by eapply (filter_nil_not_elem_of (λ v, v ≠ s)).
Qed.

Lemma first_other_elem s nb :
  NoDup nb → nb ≠ [] → first_other s nb ∈ nb.
Proof.
  intros Hnd Hne.
  destruct (head (filter (λ v, v ≠ s) nb)) as [v|] eqn:Hhd.
  - unfold first_other. rewrite Hhd. simpl.
    by apply head_filter_elem in Hhd as [_ ?].
  - assert (Hfs : first_other s nb = s) by (unfold first_other; by rewrite Hhd).
    rewrite Hfs, (first_other_sole s nb Hnd Hne Hfs). left.
Qed.

Lemma next_vertex_first_other g p u s :
  last p = Some u → head p = Some s →
  (is_Some (entry g u 0) → s = 0) →
  next_vertex g p = Returns (first_other s (keys (DiGraph.row g u))).
Proof.
  intros Hu Hs H0. rewrite (next_vertex_total g p u s) by done.
  unfold first_other. do 3 f_equal. apply filter_agree. intros x Hx.
  split; [naive_solver |]. intros Hxs; split; [| done].
  intros ->. apply elem_of_keys in Hx. by rewrite H0 in Hxs.
Qed.

Lemma extend_path_step fuel g p u :
  last p = Some u → deg g u ≠ 0%N → is_Some (g !! u) →
  extend_path (S fuel) g p =
  (v_next ← next_vertex g p;
   extend_path fuel (Graph.remove_edge g u v_next) (p ++ [v_next])).
Proof.
  intros Hu Hd Hv. simpl. unfold back. rewrite Hu. simpl.
  unfold Graph.degree. rewrite degree_out_vertex by done. simpl.
  by destruct (N.eqb_spec (deg g u) 0).
Qed.

Lemma extend_path_stop fuel g p u :
  last p = Some u → deg g u = 0%N → is_Some (g !! u) →
  extend_path (S fuel) g p = Returns (g, p).
Proof.
  intros Hu Hd Hv. simpl. unfold back. rewrite Hu. simpl.
  unfold Graph.degree. rewrite degree_out_vertex by done. simpl.
  by rewrite Hd.
Qed.

Lemma degree_Returns g u d :
  Graph.degree g u = Returns d → is_Some (g !! u) ∧ d = deg g u.
Proof.
  unfold Graph.degree. destruct (g !! u) as [m|] eqn:Hm.
  - rewrite degree_out_vertex by eauto. intros [= <-]. eauto.
  - by rewrite degree_out_absent.
Qed.

Lemma keys_row_nonempty g u : deg g u ≠ 0%N → keys (DiGraph.row g u) ≠ [].
Proof.
  intros Hd Hnil. apply keys_nil in Hnil. apply Hd. unfold deg.
  by rewrite Hnil, map_size_empty.
Qed.

(** The choice of the code and [first_other] agree unless the first
    neighbour other than the start is labelled 0. *)
Lemma next_vertex_first_other_exact g p u s :
  last p = Some u → head p = Some s →
  (first_other s (keys (DiGraph.row g u)) = 0 → s = 0) →
  next_vertex g p = Returns (first_other s (keys (DiGraph.row g u))).
Proof.
  intros Hu Hs H0. rewrite (next_vertex_total g p u s) by done.
  unfold first_other in *. do 2 f_equal.
  rewrite <- (list_filter_filter (λ v, v ≠ 0) (λ v, v ≠ s)).
  destruct (filter (λ v, v ≠ s) (keys (DiGraph.row g u))) as [|x F] eqn:HF;
    [done |].
  simpl in H0. destruct (decide (x = 0)) as [->|Hx].
  - exfalso. assert (Hin : 0 ∈ filter (λ v, v ≠ s) (keys (DiGraph.row g u)))
      by (rewrite HF; left).
    apply list_elem_of_filter in Hin as [Hne _]. by rewrite H0 in Hne.
  - by rewrite filter_cons_True.
Qed.

(** C3 (as amended): when the last vertex [u] of the trail has nonzero
    degree, the vertex appended next is the first of the remaining
    neighbours of [u], in ascending order, that is not the start vertex,
    provided that this neighbour is not labelled 0; the start vertex is
    appended only when it is the sole remaining neighbour of [u]. *)
Theorem extend_path_next (g : graph) (p : list Z) (u s : Z) (d : N)
    (nb : list Z) :
  last p = Some u → head p = Some s →
  Graph.degree g u = Returns d → d ≠ 0%N →
  DiGraph.neighbors g u = Returns nb →
  (first_other s nb = 0 → s = 0) →
  Sorted Z.le nb ∧ NoDup nb ∧
  next_vertex g p = Returns (first_other s nb) ∧
  first_other s nb ∈ nb ∧
  (first_other s nb = s → nb = [s]) ∧
  ∀ fuel,
    extend_path (S fuel) g p =
    extend_path fuel (Graph.remove_edge g u (first_other s nb))
      (p ++ [first_other s nb]).
Proof.
  intros Hu Hs [Hv ->]%degree_Returns Hd0 Hnb H0.
  rewrite neighbors_total in Hnb. injection Hnb as <-.
  pose proof (keys_row_nonempty g u Hd0) as Hne.
  pose proof (keys_NoDup (DiGraph.row g u)) as Hnd.
  pose proof (next_vertex_first_other_exact g p u s Hu Hs H0) as Hnext.
  split_and!; try done.
  - apply keys_ascending.
  - by apply first_other_elem.
  - by apply first_other_sole.
  - intros fuel. rewrite (extend_path_step fuel g p u) by done.
    by rewrite Hnext.
Qed.

Lemma extend_path_next_witness :
  next_vertex (<[1 := {[-1 := 1%N; 0 := 1%N]}]> ∅) [-5; 1] = Returns (-1).
Proof.
  destruct (extend_path_next
              (<[1 := {[-1 := 1%N; 0 := 1%N]}]> ∅) [-5; 1]
              1 (-5) 2%N [-1; 0])
    as (_ & _ & H & _).
  - reflexivity.
  - reflexivity.
  - by vm_compute.
  - discriminate.
  - by vm_compute.
  - intros H0. by vm_compute in H0.
  - exact H.
Defined.

(** ** A vertex labelled 0 *)

(** C3 (as stated, it fails): in the second step of [find_path] on the path
    0 - 1 - 2 the trail is [2; 1] and the only remaining neighbour of 1 is
    0, which is not the start vertex 2; the code appends the start vertex 2
    and not 0. *)
Lemma extend_path_next_skips_zero :
  ∃ g0 g,
    build path012 = Returns g0 ∧
    g = Graph.remove_edge g0 2 1 ∧
    (∀ fuel, find_path (S fuel) g0
             = ('(_, p) ← extend_path fuel g [2; 1]; Returns p)) ∧
    Graph.degree g 1 = Returns 1%N ∧
    DiGraph.neighbors g 1 = Returns [0] ∧
    first_other 2 [0] = 0 ∧
    next_vertex g [2; 1] = Returns 2 ∧
    next_vertex g [2; 1] ≠ Returns (first_other 2 [0]) ∧
    find_path 3 g0 = Returns [2; 1; 2].
Proof.
  eexists. eexists.
  split; [by vm_compute |].
  split; [reflexivity |].
  split; [intros fuel; reflexivity |].
  split_and!; by vm_compute.
Qed.

(** C2 (as stated, it fails): the path 0 - 1 - 2 has the two odd-degree
    vertices 0 and 2, the first of which is 0, and [find_path] returns the
    trail [2; 1; 2], which starts at 2. *)
Lemma find_path_start_skips_zero :
  ∃ g, build path012 = Returns g ∧
       DiGraph.vertices g = [0; 1; 2] ∧
       odd_vertices g = [0; 2] ∧
       expected_start g = Some 0 ∧
       find_path 3 g = Returns [2; 1; 2] ∧
       ∀ fuel p, find_path fuel g = Returns p → head p ≠ expected_start g.
Proof.
  eexists. split; [by vm_compute |].
  split_and!; try by vm_compute.
  intros fuel p Hp.
  assert (p = [2; 1; 2]) as ->.
  { eapply (find_path_functional fuel 3); [exact Hp | by vm_compute]. }
  by vm_compute.
Qed.

(** ** A graph on which the walk stops early *)

(** C1 (the code departs from it): the bowtie graph is connected and all its
    degrees are even, yet [find_path] returns the trail [1; 2; 3; 1], which
    walks 3 of the 6 edges; the triangle 2 - 4 - 5 is left out. *)
Theorem find_path_bowtie_incomplete :
  ∃ g, build bowtie = Returns g ∧
       symmetric g ∧
       connected g ∧
       num_odd g = 0%nat ∧
       graph_edges g = bowtie ∧
       (∀ k, find_path (4 + k) g = Returns [1; 2; 3; 1]) ∧
       trail_edges [1; 2; 3; 1] = [(1,2);(2,3);(1,3)] ∧
       ¬ covers g [1; 2; 3; 1].
Proof.
  destruct (foldlM_apply_op_symmetric
              ((λ e, AddEdge e.1 e.2 1) <$> bowtie) ∅ symmetric_empty)
    as (g & Hg & Hsym).
  exists g. assert (Hb : build bowtie = Returns g) by exact Hg.
  clear Hg. vm_compute in Hb. injection Hb as Hb.
  assert (Hkeys : keys g = [1; 2; 3; 4; 5]) by (by rewrite <- Hb; vm_compute).
  assert (Hadj : ∀ a, a ∈ [1; 3; 4; 5] → adjacent g a 2 ∧ adjacent g 2 a).
  { intros a Ha. rewrite <- Hb.
    repeat (apply elem_of_cons in Ha as [->|Ha];
            [split; eexists; by vm_compute |]).
    by apply elem_of_nil in Ha. }
  assert (Hhub : ∀ a, deg g a ≠ 0%N → rtc (adjacent g) a 2 ∧ rtc (adjacent g) 2 a).
  { intros a Ha.
    assert (Hin : a ∈ keys g).
    { apply elem_of_keys. destruct (g !! a) eqn:Hga; [eauto |].
      exfalso. apply Ha. unfold deg. by rewrite (row_None _ _ Hga). }
    rewrite Hkeys in Hin.
    destruct (decide (a = 2)) as [->|Hne]; [done |].
    destruct (Hadj a) as [H1 H2]; [set_solver |].
    split; by apply rtc_once. }
  split_and!; try (by rewrite <- Hb; vm_compute); try done.
  - intros a b Ha Hb'. destruct (Hhub a Ha) as [Ha2 _].
    destruct (Hhub b Hb') as [_ H2b]. by etrans.
  - intros Hcov%Permutation_length. rewrite <- Hb in Hcov. by vm_compute in Hcov.
Qed.

(** ** Termination of the walk *)

Lemma entries_insert g k m :
  (entries (<[k := m]> g) + size (DiGraph.row g k) = entries g + size m)%nat.
Proof.
  unfold entries.
  assert (Hcomm : ∀ (g' : graph) (j1 j2 : Z) (z1 z2 : gmap Z N) (y : nat),
            j1 ≠ j2 → g' !! j1 = Some z1 → g' !! j2 = Some z2 →
            (size z1 + (size z2 + y) = size z2 + (size z1 + y))%nat)
    by (intros; lia).
  destruct (g !! k) as [m0|] eqn:Hk.
  - rewrite (row_Some _ _ _ Hk).
    rewrite (map_fold_delete_L _ _ k m0 g) by eauto.
    rewrite <- (insert_delete_eq g).
    rewrite map_fold_insert_L by (eauto || apply lookup_delete_eq). lia.
  - rewrite (row_None _ _ Hk), map_size_empty.
    rewrite map_fold_insert_L by eauto. lia.
Qed.

Lemma entries_remove_edge_le g a b :
  (entries (DiGraph.remove_edge g a b) ≤ entries g)%nat.
Proof.
  unfold DiGraph.remove_edge.
  pose proof (entries_insert g a (delete b (DiGraph.row g a))) as H.
  rewrite map_size_delete in H. destruct (DiGraph.row g a !! b); simpl in H; lia.
Qed.

Lemma entries_remove_edge_lt g a b :
  is_Some (entry g a b) →
  (entries (DiGraph.remove_edge g a b) < entries g)%nat.
Proof.
  intros [w Hw]. unfold DiGraph.remove_edge, entry in *.
  pose proof (entries_insert g a (delete b (DiGraph.row g a))) as H.
  rewrite map_size_delete, Hw in H. simpl in H.
  assert (size (DiGraph.row g a) ≠ 0)%nat; [| lia].
  apply map_size_non_empty_iff. intros Hemp. by rewrite Hemp in Hw.
Qed.

Lemma is_vertex_remove_edge g a b : is_Some (Graph.remove_edge g a b !! b).
Proof. unfold Graph.remove_edge, DiGraph.remove_edge at 1. by rewrite lookup_insert_eq. Qed.

Lemma entry_Graph_remove_edge_None g a b x y :
  entry g x y = None → entry (Graph.remove_edge g a b) x y = None.
Proof.
  intros H. unfold Graph.remove_edge. rewrite !entry_remove_edge, H.
  by repeat case_decide.
Qed.

(** With no neighbour labelled 0 anywhere, every call of [extend_path]
    removes an entry of [adj], so the recursion ends; the trail it returns
    extends the one it was given. *)
Lemma extend_path_returns fuel g p u :
  (entries g < fuel)%nat →
  last p = Some u → is_Some (g !! u) →
  (∀ a, entry g a 0 = None) →
  ∃ g' q, extend_path fuel g p = Returns (g', p ++ q).
Proof.
  revert g p u. induction fuel as [|fuel IH]; intros g p u Hfuel Hu Hv Hz; [lia |].
  destruct (decide (deg g u = 0%N)) as [Hd|Hd].
  - exists g, []. rewrite app_nil_r. by eapply extend_path_stop.
  - rewrite (extend_path_step fuel g p u) by done.
    assert (∃ s, head p = Some s) as [s Hs].
    { destruct p; [done | eauto]. }
    rewrite (next_vertex_first_other g p u s)
      by (try done; intros He; rewrite Hz in He; by destruct He).
    simpl.
    set (v := first_other s (keys (DiGraph.row g u))).
    assert (Hin : is_Some (entry g u v)).
    { apply elem_of_keys, first_other_elem;
        [apply keys_NoDup | by apply keys_row_nonempty]. }
    destruct (IH (Graph.remove_edge g u v) (p ++ [v]) v) as (g' & q & Hq).
    + unfold Graph.remove_edge.
      pose proof (entries_remove_edge_lt g u v Hin).
      pose proof (entries_remove_edge_le (DiGraph.remove_edge g u v) v u). lia.
    + apply last_snoc.
    + apply is_vertex_remove_edge.
    + intros a. by apply entry_Graph_remove_edge_None.
    + exists g', ([v] ++ q). by rewrite app_assoc.
Qed.

(** ** The start of the trail *)

(** A test for [zero_free] that runs. *)
Lemma zero_free_by_rows g :
  found g 0 = false →
  forallb (λ a, negb (found (DiGraph.row g a) 0)) (keys g) = true →
  zero_free g.
Proof.
  intros Hz%is_vertex_false Hrows. split; [done |]. intros a.
  destruct (g !! a) as [m|] eqn:Hm.
  - rewrite forallb_forall in Hrows. specialize (Hrows a).
    rewrite <- list_elem_of_In, elem_of_keys, Hm in Hrows.
    specialize (Hrows ltac:(eauto)). rewrite found_entry in Hrows.
    apply negb_true_iff, bool_decide_eq_false in Hrows.
    by apply eq_None_not_Some.
  - unfold entry. by rewrite (row_None _ _ Hm).
Qed.

Lemma extend_path_prefix fuel g p g' p' :
  extend_path fuel g p = Returns (g', p') → ∃ q, p' = p ++ q.
Proof.
  revert g p. induction fuel as [|fuel IH]; intros g p; [done |]. simpl.
  destruct (back p) as [u| | |]; try done. simpl.
  destruct (Graph.degree g u) as [d| | |]; try done. simpl.
  destruct (d =? 0)%N.
  - intros [= <- <-]. exists []. by rewrite app_nil_r.
  - destruct (next_vertex g p) as [v| | |]; try done. simpl.
    intros [q ->]%IH. exists ([v] ++ q). by rewrite app_assoc.
Qed.

(** The vertex pushed first, when the first odd-degree vertex is not 0. *)
Lemma start_vertex g :
  DiGraph.vertices g ≠ [] →
  num_odd g = 0%nat ∨ num_odd g = 2%nat →
  head (odd_vertices g) ≠ Some 0 →
  ∃ s, expected_start g = Some s ∧ is_Some (g !! s) ∧
       (if first_nonzero (odd_vertices g) =? 0
        then front (DiGraph.vertices g)
        else Returns (first_nonzero (odd_vertices g))) = Returns s.
Proof.
  intros Hne Hodd Hz. unfold expected_start, first_nonzero.
  destruct Hodd as [H0|H2].
  - rewrite decide_True by done. unfold num_odd in H0.
    apply nil_length_inv in H0. rewrite H0. simpl.
    destruct (DiGraph.vertices g) as [|s l] eqn:Hvs; [done |].
    exists s. split_and!; try done.
    apply elem_of_keys. unfold DiGraph.vertices in Hvs. rewrite Hvs. left.
  - rewrite decide_False by lia. unfold num_odd in H2.
    destruct (odd_vertices g) as [|s l] eqn:Hov; [done |].
    assert (Hin : s ∈ odd_vertices g) by (rewrite Hov; left).
    apply list_elem_of_filter in Hin as [_ Hin%elem_of_keys].
    assert (Hs : s ≠ 0) by (intros ->; by apply Hz).
    exists s. rewrite filter_cons_True by done. simpl.
    by rewrite (proj2 (Z.eqb_neq s 0)).
Qed.

(** C2 (as amended): take a graph with at least one vertex and with 0 or 2
    odd-degree vertices, the first of which is not labelled 0.  Every trail
    that [find_path] returns starts at the first vertex in ascending order
    when no degree is odd, and at the first odd-degree vertex in ascending
    order when two are; and [find_path] does return a trail when 0 labels
    no vertex and no neighbour. *)
Theorem find_path_start (g : graph) :
  DiGraph.vertices g ≠ [] →
  num_odd g = 0%nat ∨ num_odd g = 2%nat →
  head (odd_vertices g) ≠ Some 0 →
  (∀ fuel p, find_path fuel g = Returns p →
             is_Some (head p) ∧ head p = expected_start g) ∧
  (zero_free g →
   ∃ p, ∀ k, find_path (S (entries g) + k) g = Returns p).
Proof.
  intros Hne Hodd Hz.
  destruct (start_vertex g Hne Hodd Hz) as (s & Hexp & Hs & Hstart).
  assert (Hfind : ∀ fuel, find_path fuel g =
                          ('(_, p) ← extend_path fuel g [s]; Returns p)).
  { intros fuel. unfold find_path. rewrite scan_odd_total. simpl.
    replace ((Z.of_nat (num_odd g) =? 0) || (Z.of_nat (num_odd g) =? 2))
      with true by (destruct Hodd as [-> | ->]; done).
    by rewrite Hstart. }
  split.
  - intros fuel p. rewrite Hfind.
    destruct (extend_path fuel g [s]) as [[g' p']| | |] eqn:He; try done.
    simpl. intros [= <-]. apply extend_path_prefix in He as [q ->].
    rewrite Hexp. simpl. eauto.
  - intros [_ Hzf].
    destruct (extend_path_returns (S (entries g)) g [s] s) as (g' & q & Hq);
      [lia | done | done | done |].
    exists ([s] ++ q). intros k. rewrite Hfind.
    by rewrite (extend_path_fuel_le (S (entries g)) (S (entries g) + k)
                  _ _ _ ltac:(lia) Hq).
Qed.

Lemma find_path_start_witness :
  ∃ g2 p, build sample2 = Returns g2 ∧
          find_path 20 g2 = Returns p ∧ head p = Some 2.
Proof.
  destruct (foldlM_apply_op_symmetric
              ((λ e, AddEdge e.1 e.2 1) <$> sample2) ∅ symmetric_empty)
    as (g & Hg & _).
  assert (Hb : build sample2 = Returns g) by exact Hg.
  clear Hg. vm_compute in Hb. injection Hb as Hb.
  destruct (find_path_start g) as (Hhd & Hret).
  - by rewrite <- Hb; vm_compute.
  - right. by rewrite <- Hb; vm_compute.
  - by rewrite <- Hb; vm_compute.
  - destruct Hret as [p Hp].
    { rewrite <- Hb. apply zero_free_by_rows; by vm_compute. }
    assert (Hp20 : find_path 20 g = Returns p).
    { replace 20%nat with (S (entries g) + 7)%nat; [apply Hp |].
      by rewrite <- Hb; vm_compute. }
    exists g, p. split; [by rewrite <- Hb; vm_compute |].
    split; [done |].
    destruct (Hhd 20%nat p Hp20) as [_ ->]. rewrite <- Hb. by vm_compute.
Defined.

(** ** The caller's graph *)

(** [extend_path_at] does to the object at [l] what [extend_path] does to
    its value, and touches no other object. *)
Lemma extend_path_at_value fuel σ l g p :
  σ !! l = Some g →
  extend_path_at fuel σ l p =
  ('(g', p') ← extend_path fuel g p; Returns (<[l := g']> σ, p')).
Proof.
  revert σ g p. induction fuel as [|fuel IH]; intros σ g p Hl; [done |].
  simpl. unfold deref. rewrite Hl. simpl.
  destruct (back p) as [u| | |]; try done. simpl.
  destruct (Graph.degree g u) as [d| | |]; try done. simpl.
  destruct (d =? 0)%N; simpl; [by rewrite insert_id |].
  destruct (next_vertex g p) as [v| | |]; try done. simpl.
  rewrite (IH _ (Graph.remove_edge g u v)) by apply lookup_insert_eq.
  destruct (extend_path fuel _ _) as [[g' p']| | |]; try done. simpl.
  by rewrite insert_insert_eq.
Qed.

Lemma find_path_at_value fuel σ l g :
  σ !! l = Some g →
  find_path_at fuel σ l = (p ← find_path fuel g; Returns (p, σ)).
Proof.
  intros Hl. unfold find_path_at, find_path, deref. rewrite Hl. simpl.
  destruct (scan_odd g) as [[c f]| | |]; try done. simpl.
  destruct (_ || _); [| done].
  destruct (if f =? 0 then _ else _) as [s| | |]; try done. simpl.
  rewrite (extend_path_at_value _ _ _ g) by apply lookup_insert_eq.
  destruct (extend_path fuel g [s]) as [[g' p]| | |]; try done. simpl.
  rewrite insert_insert_eq, delete_insert_eq, delete_id; [done |].
  apply not_elem_of_dom, is_fresh.
Qed.

(** C8: a call of [find_path] on the caller's graph object returns what
    [find_path] computes from the value of that object and leaves the store
    as it was: the edges are removed from a new object, which is gone when
    the call returns, so the caller's graph holds the same value and
    answers [is_vertex], [is_edge], [weight] and [degree] as before. *)
Theorem find_path_keeps_graph (fuel : nat) (σ σ' : store) (l : positive)
    (g : graph) (p : list Z) :
  σ !! l = Some g →
  find_path_at fuel σ l = Returns (p, σ') →
  find_path fuel g = Returns p ∧
  σ' = σ ∧
  ∃ g', σ' !! l = Some g' ∧
        ∀ a b, DiGraph.is_vertex g' a = DiGraph.is_vertex g a ∧
               DiGraph.is_edge g' a b = DiGraph.is_edge g a b ∧
               DiGraph.weight g' a b = DiGraph.weight g a b ∧
               Graph.degree g' a = Graph.degree g a.
Proof.
  intros Hl Hcall. rewrite (find_path_at_value _ _ _ g Hl) in Hcall.
  destruct (find_path fuel g) as [q| | |]; try done.
  simpl in Hcall. injection Hcall as -> ->.
  split_and!; try done. by exists g.
Qed.

Lemma find_path_keeps_graph_witness :
  ∃ g', ({[1%positive := <[2 := {[1 := 1%N]}]> (<[1 := {[2 := 1%N]}]> ∅)]}
           : store) !! 1%positive = Some g' ∧
        Graph.degree g' 2 = Returns 1%N.
Proof.
  destruct (find_path_keeps_graph 3
              {[1%positive := <[2 := {[1 := 1%N]}]> (<[1 := {[2 := 1%N]}]> ∅)]}
              {[1%positive := <[2 := {[1 := 1%N]}]> (<[1 := {[2 := 1%N]}]> ∅)]}
              1%positive
              (<[2 := {[1 := 1%N]}]> (<[1 := {[2 := 1%N]}]> ∅)) [1; 2])
    as (_ & _ & g' & Hg' & Hq).
  - apply lookup_singleton_eq.
  - by vm_compute.
  - exists g'. split; [done |].
    destruct (Hq 2 2) as (_ & _ & _ & ->). by vm_compute.
Defined.

(** ** Two calls on equal graphs *)




(** * Further properties of the container *)

(** ** Order of the listings *)

Lemma StronglySorted_le_lt (l : list Z) :
  StronglySorted Z.le l → NoDup l → StronglySorted Z.lt l.
Proof.
  induction 1 as [|x l Hl IH Hx]; intros Hnd; [constructor |].
  apply NoDup_cons in Hnd as [Hxl Hnd]. constructor; [by apply IH |].
  rewrite Forall_forall in Hx |- *. intros y Hy.
  specialize (Hx y Hy). assert (x ≠ y) by (by intros ->). lia.
Qed.

Lemma StronglySorted_lt_filter (P : Z → Prop) `{!∀ x, Decision (P x)}
    (l : list Z) :
  StronglySorted Z.lt l → StronglySorted Z.lt (filter P l).
Proof.
  induction 1 as [|x l Hl IH Hx]; [constructor |].
  rewrite filter_cons. case_decide; [| done].
  constructor; [done |]. rewrite Forall_forall in Hx |- *.
  intros y [_ Hy]%list_elem_of_filter. by apply Hx.
Qed.

Lemma keys_strictly_ascending {V} (m : gmap Z V) : StronglySorted Z.lt (keys m).
Proof.
  apply StronglySorted_le_lt; [| apply keys_NoDup].
  apply Sorted_StronglySorted; [apply _ | apply keys_ascending].
Qed.

Lemma ascending_unique (l1 l2 : list Z) :
  StronglySorted Z.lt l1 → StronglySorted Z.lt l2 →
  (∀ x, x ∈ l1 ↔ x ∈ l2) → l1 = l2.
Proof.
  intros H1 H2 Hel.
  assert (Hnd : ∀ l, StronglySorted Z.lt l → NoDup l).
  { induction 1 as [|x l Hl IH Hx]; constructor; [| done].
    rewrite Forall_forall in Hx. intros Hin. specialize (Hx x Hin). lia. }
  apply (StronglySorted_unique_strong Z.lt); try done.
  - intros; lia.
  - apply NoDup_Permutation; auto.
Qed.

Lemma is_edge_true g a b :
  DiGraph.is_edge g a b = Returns true ↔ is_Some (entry g a b).
Proof.
  rewrite is_edge_total, found_entry. split.
  - intros [= H]. by apply bool_decide_eq_true in H.
  - intros H. f_equal. by apply bool_decide_eq_true.
Qed.

(** X1: [is_edge], [weight] and [neighbors] never throw, whatever the graph
    and the arguments: every [at] in them is guarded.  [weight] is 0 when
    [is_edge] is false, and is the stored weight when it is true. *)
Theorem queries_never_throw (g : graph) (a b : Z) :
  ∃ e w nb,
    DiGraph.is_edge g a b = Returns e ∧
    DiGraph.weight g a b = Returns w ∧
    DiGraph.neighbors g a = Returns nb ∧
    (e = false → w = 0%N) ∧
    (e = true → ∃ m, g !! a = Some m ∧ m !! b = Some w).
Proof.
  exists (found (DiGraph.row g a) b), (default 0%N (entry g a b)),
    (keys (DiGraph.row g a)).
  rewrite is_edge_total, weight_total, neighbors_total, found_entry.
  split_and!; try done.
  - intros He%bool_decide_eq_false. by rewrite (proj2 (eq_None_not_Some _) He).
  - intros [w Hw]%bool_decide_eq_true. rewrite Hw. simpl.
    unfold entry, DiGraph.row in Hw. destruct (g !! a) as [m|]; [eauto |].
    simpl in Hw. by rewrite lookup_empty in Hw.
Qed.

(** X2: [vertices] lists the vertices of the graph, each once, in strictly
    ascending order. *)
Theorem vertices_listing (g : graph) :
  Sorted Z.lt (DiGraph.vertices g) ∧
  ∀ v, v ∈ DiGraph.vertices g ↔ DiGraph.is_vertex g v = true.
Proof.
  split.
  - apply StronglySorted_Sorted, keys_strictly_ascending.
  - intros v. unfold DiGraph.vertices. by rewrite elem_of_keys, is_vertex_true.
Qed.

(** X3: [neighbors(v)] lists, each once and in strictly ascending order, the
    vertices [b] for which [is_edge(v, b)] holds; when [v] is a vertex,
    [degree_out(v)] is the length of that list. *)
Theorem neighbors_listing (g : graph) (v : Z) :
  ∃ nb, DiGraph.neighbors g v = Returns nb ∧
        Sorted Z.lt nb ∧
        (∀ b, b ∈ nb ↔ DiGraph.is_edge g v b = Returns true) ∧
        (DiGraph.is_vertex g v = true →
         DiGraph.degree_out g v = Returns (N.of_nat (length nb))).
Proof.
  exists (keys (DiGraph.row g v)). rewrite neighbors_total.
  split_and!; try done.
  - apply StronglySorted_Sorted, keys_strictly_ascending.
  - intros b. by rewrite elem_of_keys, is_edge_true.
  - intros Hv%is_vertex_true. rewrite degree_out_vertex by done.
    unfold deg. by rewrite keys_length.
Qed.

Lemma elem_of_neighbors_in g v a :
  a ∈ DiGraph.neighbors_in g v ↔ is_Some (entry g a v).
Proof.
  unfold DiGraph.neighbors_in. rewrite list_elem_of_filter, elem_of_keys.
  rewrite found_entry, bool_decide_eq_true. split; [naive_solver |].
  intros Hav. split; [done |]. unfold entry, DiGraph.row in Hav.
  destruct (g !! a); [eauto |]. simpl in Hav. rewrite lookup_empty in Hav.
  by destruct Hav.
Qed.

Lemma neighbors_in_ascending g v : StronglySorted Z.lt (DiGraph.neighbors_in g v).
Proof. apply StronglySorted_lt_filter, keys_strictly_ascending. Qed.

(** X4: [neighbors_in(v)] lists, each once and in strictly ascending order,
    the vertices [a] for which [is_edge(a, v)] holds, also when [v] itself
    is not a vertex. *)
Theorem neighbors_in_listing (g : graph) (v : Z) :
  Sorted Z.lt (DiGraph.neighbors_in g v) ∧
  ∀ a, a ∈ DiGraph.neighbors_in g v ↔ DiGraph.is_edge g a v = Returns true.
Proof.
  split.
  - apply StronglySorted_Sorted, neighbors_in_ascending.
  - intros a. by rewrite elem_of_neighbors_in, is_edge_true.
Qed.

(** Tests for [symmetric] and [loop_free] that run. *)
Lemma entry_Some_keys g a b :
  is_Some (entry g a b) → a ∈ keys g ∧ b ∈ keys (DiGraph.row g a).
Proof.
  intros Hab. split; [| by apply elem_of_keys].
  apply elem_of_keys. unfold entry, DiGraph.row in Hab.
  destruct (g !! a); [eauto |]. simpl in Hab. rewrite lookup_empty in Hab.
  by destruct Hab.
Qed.

Lemma symmetric_by_rows g :
  forallb (λ a, forallb (λ b, bool_decide (entry g b a = entry g a b))
                  (keys (DiGraph.row g a))) (keys g) = true →
  symmetric g.
Proof.
  intros Hall.
  assert (Hsome : ∀ a b, is_Some (entry g a b) → entry g b a = entry g a b).
  { intros a b [Ha Hb]%entry_Some_keys.
    rewrite forallb_forall in Hall. apply list_elem_of_In, Hall in Ha.
    rewrite forallb_forall in Ha. apply list_elem_of_In, Ha in Hb.
    by apply bool_decide_eq_true in Hb. }
  intros a b. destruct (entry g a b) as [w|] eqn:Hab.
  - symmetry. rewrite <- Hab. apply Hsome. by rewrite Hab.
  - destruct (entry g b a) as [w|] eqn:Hba; [| done].
    rewrite <- Hba, <- Hab. apply Hsome. by rewrite Hba.
Qed.

Lemma loop_free_by_rows g :
  forallb (λ a, negb (found (DiGraph.row g a) a)) (keys g) = true →
  loop_free g.
Proof.
  intros Hall a. destruct (entry g a a) as [w|] eqn:Haa; [| done].
  exfalso. assert (Hs : is_Some (entry g a a)) by (by rewrite Haa).
  destruct (entry_Some_keys g a a Hs) as [Ha _].
  rewrite forallb_forall in Hall. apply list_elem_of_In, Hall in Ha.
  rewrite found_entry in Ha. apply negb_true_iff, bool_decide_eq_false in Ha.
  done.
Qed.

(** X5: in a graph that stores every edge in both directions, the inward
    and the outward neighbours of a vertex are the same list, so
    [degree_in(v)] is what [degree(v)] returns for a vertex [v]. *)
Theorem undirected_degree_in (g : graph) (v : Z) :
  symmetric g →
  DiGraph.neighbors g v = Returns (DiGraph.neighbors_in g v) ∧
  (DiGraph.is_vertex g v = true →
   Graph.degree g v = Returns (DiGraph.degree_in g v)).
Proof.
  intros Hs.
  assert (Heq : keys (DiGraph.row g v) = DiGraph.neighbors_in g v).
  { apply ascending_unique;
      [apply keys_strictly_ascending | apply neighbors_in_ascending |].
    intros x. by rewrite elem_of_keys, elem_of_neighbors_in, <- (Hs v x). }
  split; [by rewrite neighbors_total, Heq |].
  intros Hv%is_vertex_true. unfold Graph.degree, DiGraph.degree_in.
  rewrite degree_out_vertex by done. unfold deg.
  by rewrite <- Heq, keys_length.
Qed.

Lemma undirected_degree_in_witness :
  DiGraph.neighbors (<[2 := {[1 := 1%N]}]> (<[1 := {[2 := 1%N]}]> ∅)) 1
  = Returns (DiGraph.neighbors_in
               (<[2 := {[1 := 1%N]}]> (<[1 := {[2 := 1%N]}]> ∅)) 1).
Proof.
  destruct (undirected_degree_in
              (<[2 := {[1 := 1%N]}]> (<[1 := {[2 := 1%N]}]> ∅)) 1)
    as [H _]; [| exact H].
  apply symmetric_by_rows. by vm_compute.
Defined.

(** ** Effect of the mutators on the queries *)

Lemma graph_ext (g g' : graph) :
  (∀ a, is_Some (g !! a) ↔ is_Some (g' !! a)) →
  (∀ a b, entry g a b = entry g' a b) → g = g'.
Proof.
  intros Hv He. apply map_eq. intros a.
  specialize (Hv a). pose proof (He a) as Ha. unfold entry, DiGraph.row in Ha.
  destruct (g !! a) as [m|], (g' !! a) as [m'|]; simpl in Ha.
  - f_equal. by apply map_eq.
  - destruct Hv as [Hv _]. by destruct Hv.
  - destruct Hv as [_ Hv]. by destruct Hv.
  - done.
Qed.

Lemma vertex_remove_edge g v1 v2 a :
  is_Some (DiGraph.remove_edge g v1 v2 !! a) ↔ a = v1 ∨ is_Some (g !! a).
Proof.
  unfold DiGraph.remove_edge. rewrite lookup_insert_is_Some.
  destruct (decide (v1 = a)); naive_solver.
Qed.

Lemma vertex_update_edge g v1 v2 w a :
  is_Some (DiGraph.update_edge g v1 v2 w !! a) ↔
  a = v1 ∨ a = v2 ∨ is_Some (g !! a).
Proof.
  unfold DiGraph.update_edge. rewrite lookup_insert_is_Some, is_vertex_add_vertex.
  destruct (decide (v1 = a)); naive_solver.
Qed.

Lemma vertex_remove g v a :
  is_Some (DiGraph.remove g v !! a) ↔ a ≠ v ∧ is_Some (g !! a).
Proof.
  unfold DiGraph.remove. destruct (decide (a = v)) as [->|Hne].
  - rewrite lookup_delete_eq. split; [by intros [? ?] | naive_solver].
  - rewrite lookup_delete_ne, lookup_fmap by done.
    rewrite fmap_is_Some. naive_solver.
Qed.

Lemma is_vertex_iff g g' a :
  (is_Some (g' !! a) ↔ is_Some (g !! a)) →
  DiGraph.is_vertex g' a = DiGraph.is_vertex g a.
Proof.
  intros H. destruct (DiGraph.is_vertex g a) eqn:Hg.
  - apply is_vertex_true. apply is_vertex_true in Hg. by apply H.
  - apply is_vertex_false. apply is_vertex_false in Hg.
    apply eq_None_not_Some. rewrite H. by apply eq_None_not_Some.
Qed.

Lemma queries_by_entry g g' a b :
  entry g' a b = entry g a b →
  DiGraph.is_edge g' a b = DiGraph.is_edge g a b ∧
  DiGraph.weight g' a b = DiGraph.weight g a b.
Proof. intros H. by rewrite !is_edge_total, !weight_total, !found_entry, H. Qed.

Lemma is_edge_false g a b :
  DiGraph.is_edge g a b = Returns false ↔ entry g a b = None.
Proof.
  rewrite is_edge_total, found_entry. split.
  - intros [= H]. apply bool_decide_eq_false in H. by apply eq_None_not_Some.
  - intros ->. done.
Qed.

(** X6: [add_vertex(v)] makes [v] a vertex and changes nothing else: the
    other vertices, the edges and the weights stay; a new vertex has
    out-degree 0; on a vertex of the graph the call changes nothing. *)
Theorem add_vertex_effect (g : graph) (v : Z) :
  DiGraph.is_vertex (DiGraph.add_vertex g v) v = true ∧
  (∀ a, a ≠ v →
        DiGraph.is_vertex (DiGraph.add_vertex g v) a = DiGraph.is_vertex g a) ∧
  (∀ a b, DiGraph.is_edge (DiGraph.add_vertex g v) a b = DiGraph.is_edge g a b ∧
          DiGraph.weight (DiGraph.add_vertex g v) a b = DiGraph.weight g a b) ∧
  (DiGraph.is_vertex g v = true → DiGraph.add_vertex g v = g) ∧
  (DiGraph.is_vertex g v = false →
   DiGraph.degree_out (DiGraph.add_vertex g v) v = Returns 0%N).
Proof.
  split_and!.
  - apply is_vertex_true, is_vertex_add_vertex. by left.
  - intros a Ha. apply is_vertex_iff. rewrite is_vertex_add_vertex. naive_solver.
  - intros a b. apply queries_by_entry, entry_add_vertex.
  - intros [m Hm]%is_vertex_true. unfold DiGraph.add_vertex. by rewrite Hm.
  - intros Hv%is_vertex_false. unfold DiGraph.add_vertex, DiGraph.degree_out, at_.
    by rewrite Hv, lookup_insert_eq.
Qed.

(** X7: after [update_edge(v1, v2, w)] the edge exists with weight [w] and
    both ends are vertices; no other edge or weight changes, no vertex is
    lost, and a second [update_edge] on the same pair replaces the weight
    (the result is the same graph as with the second call alone). *)
Theorem update_edge_effect (g : graph) (v1 v2 : Z) (w : N) :
  DiGraph.is_edge (DiGraph.update_edge g v1 v2 w) v1 v2 = Returns true ∧
  DiGraph.weight (DiGraph.update_edge g v1 v2 w) v1 v2 = Returns w ∧
  DiGraph.is_vertex (DiGraph.update_edge g v1 v2 w) v1 = true ∧
  DiGraph.is_vertex (DiGraph.update_edge g v1 v2 w) v2 = true ∧
  (∀ a b, (a, b) ≠ (v1, v2) →
     DiGraph.is_edge (DiGraph.update_edge g v1 v2 w) a b = DiGraph.is_edge g a b ∧
     DiGraph.weight (DiGraph.update_edge g v1 v2 w) a b = DiGraph.weight g a b) ∧
  (∀ a, DiGraph.is_vertex g a = true →
        DiGraph.is_vertex (DiGraph.update_edge g v1 v2 w) a = true) ∧
  (∀ w', DiGraph.update_edge (DiGraph.update_edge g v1 v2 w) v1 v2 w'
         = DiGraph.update_edge g v1 v2 w').
Proof.
  assert (He : entry (DiGraph.update_edge g v1 v2 w) v1 v2 = Some w).
  { rewrite entry_update_edge. by rewrite decide_True. }
  split_and!.
  - apply is_edge_true. by rewrite He.
  - by rewrite weight_total, He.
  - apply is_vertex_true, vertex_update_edge. by left.
  - apply is_vertex_true, vertex_update_edge. right; by left.
  - intros a b Hab. apply queries_by_entry. rewrite entry_update_edge.
    rewrite decide_False; [done |]. intros [-> ->]. done.
  - intros a Ha%is_vertex_true. apply is_vertex_true, vertex_update_edge. eauto.
  - intros w'. apply graph_ext.
    + intros a. rewrite !vertex_update_edge. naive_solver.
    + intros a b. rewrite !entry_update_edge. by case_decide.
Qed.

(** X8: [add_edge] never overwrites.  When the edge exists the graph stays
    as it is, weight included; when it does not, the call is
    [update_edge]; either way a further [add_edge] on the same pair, with
    any weight, changes nothing. *)
Theorem add_edge_effect (g : graph) (v1 v2 : Z) (w : N) :
  ∃ g', DiGraph.add_edge g v1 v2 w = Returns g' ∧
        DiGraph.is_edge g' v1 v2 = Returns true ∧
        (DiGraph.is_edge g v1 v2 = Returns true → g' = g) ∧
        (DiGraph.is_edge g v1 v2 = Returns false →
         g' = DiGraph.update_edge g v1 v2 w ∧
         DiGraph.weight g' v1 v2 = Returns w) ∧
        ∀ w', DiGraph.add_edge g' v1 v2 w' = Returns g'.
Proof.
  rewrite add_edge_total. eexists. split; [done |].
  destruct (entry g v1 v2) as [w0|] eqn:He.
  - split_and!.
    + apply is_edge_true. by rewrite He.
    + done.
    + intros Hf%is_edge_false. congruence.
    + intros w'. by rewrite add_edge_total, He.
  - assert (He' : entry (DiGraph.update_edge g v1 v2 w) v1 v2 = Some w).
    { rewrite entry_update_edge. by rewrite decide_True. }
    split_and!.
    + apply is_edge_true. by rewrite He'.
    + intros [w0 Hw0]%is_edge_true. congruence.
    + intros _. split; [done |]. by rewrite weight_total, He'.
    + intros w'. by rewrite add_edge_total, He'.
Qed.

(** X9: [remove_edge(v1, v2)] removes that edge and no other, changes no
    other weight, removes no vertex, and a second call changes nothing. *)
Theorem remove_edge_effect (g : graph) (v1 v2 : Z) :
  DiGraph.is_edge (DiGraph.remove_edge g v1 v2) v1 v2 = Returns false ∧
  DiGraph.weight (DiGraph.remove_edge g v1 v2) v1 v2 = Returns 0%N ∧
  (∀ a b, (a, b) ≠ (v1, v2) →
     DiGraph.is_edge (DiGraph.remove_edge g v1 v2) a b = DiGraph.is_edge g a b ∧
     DiGraph.weight (DiGraph.remove_edge g v1 v2) a b = DiGraph.weight g a b) ∧
  (∀ a, DiGraph.is_vertex g a = true →
        DiGraph.is_vertex (DiGraph.remove_edge g v1 v2) a = true) ∧
  DiGraph.remove_edge (DiGraph.remove_edge g v1 v2) v1 v2
  = DiGraph.remove_edge g v1 v2.
Proof.
  assert (He : entry (DiGraph.remove_edge g v1 v2) v1 v2 = None).
  { rewrite entry_remove_edge. by rewrite decide_True. }
  split_and!.
  - by apply is_edge_false.
  - by rewrite weight_total, He.
  - intros a b Hab. apply queries_by_entry. rewrite entry_remove_edge.
    rewrite decide_False; [done |]. intros [-> ->]. done.
  - intros a Ha%is_vertex_true. apply is_vertex_true, vertex_remove_edge. eauto.
  - apply remove_edge_missing_edge; [| done].
    apply vertex_remove_edge. by left.
Qed.

(** X10: on two vertices that are not joined, [update_edge] followed by
    [remove_edge] gives back the graph it started from. *)
Theorem update_remove_edge (g : graph) (v1 v2 : Z) (w : N) :
  DiGraph.is_vertex g v1 = true → DiGraph.is_vertex g v2 = true →
  DiGraph.is_edge g v1 v2 = Returns false →
  DiGraph.remove_edge (DiGraph.update_edge g v1 v2 w) v1 v2 = g.
Proof.
  intros H1%is_vertex_true H2%is_vertex_true He%is_edge_false.
  symmetry. apply graph_ext.
  - intros a. rewrite vertex_remove_edge, vertex_update_edge. naive_solver.
  - intros a b. rewrite entry_remove_edge, entry_update_edge.
    case_decide as Hab; [| done]. by destruct Hab as [-> ->].
Qed.

Lemma update_remove_edge_witness :
  DiGraph.remove_edge
    (DiGraph.update_edge (<[2 := ∅]> (<[1 := {[3 := 4%N]}]> ∅)) 1 2 9) 1 2
  = <[2 := ∅]> (<[1 := {[3 := 4%N]}]> ∅).
Proof. apply update_remove_edge; by vm_compute. Defined.

(** X11: after [remove(v)], [v] is no vertex and no edge begins or ends at
    [v]; the other vertices, the edges between them and their weights are
    as before; a second [remove(v)] changes nothing. *)
Theorem remove_effect (g : graph) (v : Z) :
  DiGraph.is_vertex (DiGraph.remove g v) v = false ∧
  (∀ a, a ≠ v → DiGraph.is_vertex (DiGraph.remove g v) a = DiGraph.is_vertex g a) ∧
  (∀ a b, DiGraph.is_edge (DiGraph.remove g v) a b = Returns true →
          a ≠ v ∧ b ≠ v) ∧
  (∀ a b, a ≠ v → b ≠ v →
     DiGraph.is_edge (DiGraph.remove g v) a b = DiGraph.is_edge g a b ∧
     DiGraph.weight (DiGraph.remove g v) a b = DiGraph.weight g a b) ∧
  DiGraph.remove (DiGraph.remove g v) v = DiGraph.remove g v.
Proof.
  split_and!.
  - apply is_vertex_false, eq_None_not_Some. rewrite vertex_remove. naive_solver.
  - intros a Ha. apply is_vertex_iff. rewrite vertex_remove. naive_solver.
  - intros a b [w Hw]%is_edge_true. rewrite entry_remove in Hw.
    case_decide as Hab; [done |]. naive_solver.
  - intros a b Ha Hb. apply queries_by_entry. rewrite entry_remove.
    rewrite decide_False; [done |]. naive_solver.
  - apply graph_ext.
    + intros a. rewrite !vertex_remove. naive_solver.
    + intros a b. rewrite !entry_remove. by case_decide.
Qed.

(** ** The ends of an edge are vertices *)

Lemma entry_absent_vertex g a b : g !! a = None → entry g a b = None.
Proof. intros Ha. unfold entry. by rewrite (row_None _ _ Ha). Qed.

Lemma entry_Some_vertex g a b : is_Some (entry g a b) → is_Some (g !! a).
Proof.
  intros Hab. destruct (g !! a) eqn:Ha; [eauto |].
  rewrite (entry_absent_vertex _ _ _ Ha) in Hab. by destruct Hab.
Qed.

Lemma closed_empty : closed ∅.
Proof. intros a b Hab. by destruct Hab. Qed.

Lemma closed_add_vertex g v : closed g → closed (DiGraph.add_vertex g v).
Proof.
  intros Hc a b. rewrite entry_add_vertex, is_vertex_add_vertex. eauto.
Qed.

Lemma closed_update_edge g v1 v2 w :
  closed g → closed (DiGraph.update_edge g v1 v2 w).
Proof.
  intros Hc a b. rewrite entry_update_edge, vertex_update_edge.
  case_decide; naive_solver.
Qed.

Lemma closed_remove_edge g v1 v2 : closed g → closed (DiGraph.remove_edge g v1 v2).
Proof.
  intros Hc a b. rewrite entry_remove_edge, vertex_remove_edge.
  case_decide; [by intros [? ?] | eauto].
Qed.

Lemma closed_remove g v : closed g → closed (DiGraph.remove g v).
Proof.
  intros Hc a b. rewrite entry_remove, vertex_remove.
  case_decide; [by intros [? ?] | naive_solver].
Qed.

Lemma closed_add_edge g v1 v2 w :
  closed g → ∃ g', DiGraph.add_edge g v1 v2 w = Returns g' ∧ closed g'.
Proof.
  intros Hc. rewrite add_edge_total. eexists; split; [done |].
  destruct (entry g v1 v2); [done | by apply closed_update_edge].
Qed.

Lemma apply_directed_closed g o :
  closed g → ∃ g', apply_directed g o = Returns g' ∧ closed g'.
Proof.
  intros Hc. destruct o; simpl;
    eauto using closed_add_vertex, closed_add_edge, closed_update_edge,
      closed_remove_edge, closed_remove.
Qed.

Lemma apply_op_closed g o :
  closed g → ∃ g', apply_op g o = Returns g' ∧ closed g'.
Proof.
  intros Hc. destruct o; simpl;
    eauto using closed_add_vertex, closed_update_edge, closed_remove_edge,
      closed_remove.
  unfold Graph.add_edge.
  destruct (closed_add_edge g v1 v2 w Hc) as (g1 & -> & Hc1). simpl.
  by apply closed_add_edge.
Qed.

Lemma foldlM_closed (step : graph → op → outcome graph) ops g :
  (∀ g o, closed g → ∃ g', step g o = Returns g' ∧ closed g') →
  closed g → ∃ g', foldlM step ops g = Returns g' ∧ closed g'.
Proof.
  intros Hstep. revert g. induction ops as [|o ops IH]; intros g Hc; simpl;
    [eauto |].
  destruct (Hstep g o Hc) as (g1 & -> & Hc1). simpl. eauto.
Qed.

Lemma closed_ends g a b :
  closed g → DiGraph.is_edge g a b = Returns true →
  DiGraph.is_vertex g a = true ∧ DiGraph.is_vertex g b = true.
Proof.
  intros Hc Hab%is_edge_true. split; apply is_vertex_true.
  - by eapply entry_Some_vertex.
  - by eapply Hc.
Qed.

(** A test for [closed] that runs. *)
Lemma closed_by_rows g :
  forallb (λ a, forallb (λ b, found g b) (keys (DiGraph.row g a))) (keys g)
  = true →
  closed g.
Proof.
  intros Hall a b [Ha Hb]%entry_Some_keys.
  rewrite forallb_forall in Hall. apply list_elem_of_In, Hall in Ha.
  rewrite forallb_forall in Ha. apply list_elem_of_In, Ha in Hb.
  by apply bool_decide_eq_true in Hb.
Qed.

(** X12: every sequence of calls of [add_vertex], [add_edge], [update_edge],
    [remove_edge] and [remove] on an empty graph, directed or undirected,
    runs without an exception and builds a graph in which both ends of every
    edge are vertices. *)
Theorem built_graph_ends (ops : list op) :
  (∃ g, run_directed ops = Returns g ∧
        ∀ a b, DiGraph.is_edge g a b = Returns true →
               DiGraph.is_vertex g a = true ∧ DiGraph.is_vertex g b = true) ∧
  (∃ g, run ops = Returns g ∧
        ∀ a b, DiGraph.is_edge g a b = Returns true →
               DiGraph.is_vertex g a = true ∧ DiGraph.is_vertex g b = true).
Proof.
  split.
  - destruct (foldlM_closed apply_directed ops ∅ apply_directed_closed closed_empty)
      as (g & Hg & Hc).
    exists g. split; [done |]. intros a b. by apply closed_ends.
  - destruct (foldlM_closed apply_op ops ∅ apply_op_closed closed_empty)
      as (g & Hg & Hc).
    exists g. split; [done |]. intros a b. by apply closed_ends.
Qed.

(** X13: in a graph where the ends of all edges are vertices, [remove(v)] on
    a [v] that is not a vertex changes nothing. *)
Theorem remove_absent (g : graph) (v : Z) :
  closed g → DiGraph.is_vertex g v = false → DiGraph.remove g v = g.
Proof.
  intros Hc Hv%is_vertex_false. apply graph_ext.
  - intros a. rewrite vertex_remove. split; [naive_solver |].
    intros Ha. split; [| done]. intros ->. rewrite Hv in Ha. by destruct Ha.
  - intros a b. rewrite entry_remove. case_decide as Hab; [| done].
    symmetry. destruct Hab as [-> | ->].
    + by apply entry_absent_vertex.
    + apply eq_None_not_Some. intros Hav%Hc. rewrite Hv in Hav. by destruct Hav.
Qed.

Lemma remove_absent_witness :
  DiGraph.remove (<[1 := {[1 := 3%N]}]> ∅) 2 = <[1 := {[1 := 3%N]}]> ∅.
Proof.
  apply remove_absent; [| by vm_compute].
  apply closed_by_rows. by vm_compute.
Defined.

(** ** The undirected mutators *)

(** X14: on a graph that stores every edge in both directions, the
    undirected [add_edge(v1, v2, w)] leaves the graph as it is when the edge
    exists, and otherwise gives the edge the weight [w] in both directions;
    no other edge or weight changes. *)
Theorem undirected_add_edge (g : graph) (v1 v2 : Z) (w : N) :
  symmetric g →
  ∃ g', Graph.add_edge g v1 v2 w = Returns g' ∧
        (DiGraph.is_edge g v1 v2 = Returns true → g' = g) ∧
        (DiGraph.is_edge g v1 v2 = Returns false →
         DiGraph.weight g' v1 v2 = Returns w ∧
         DiGraph.weight g' v2 v1 = Returns w ∧
         DiGraph.is_edge g' v1 v2 = Returns true ∧
         DiGraph.is_edge g' v2 v1 = Returns true) ∧
        ∀ a b, (a, b) ≠ (v1, v2) → (a, b) ≠ (v2, v1) →
               DiGraph.is_edge g' a b = DiGraph.is_edge g a b ∧
               DiGraph.weight g' a b = DiGraph.weight g a b.
Proof.
  intros Hs. unfold Graph.add_edge. rewrite add_edge_total. simpl.
  rewrite add_edge_total. eexists. split; [done |].
  destruct (entry g v1 v2) as [w0|] eqn:H12.
  - rewrite (Hs v2 v1), H12. split_and!; try done.
    intros Hf%is_edge_false. congruence.
  - assert (H21 : entry (DiGraph.update_edge g v1 v2 w) v2 v1
                  = if decide (v1 = v2) then Some w else None).
    { rewrite entry_update_edge, (Hs v2 v1), H12.
      repeat case_decide; naive_solver. }
    split_and!.
    + intros [w0 Hw0]%is_edge_true. congruence.
    + intros _. rewrite !is_edge_true, !weight_total, H21.
      destruct (decide (v1 = v2)) as [->|Hne];
        rewrite ?entry_update_edge; repeat case_decide; naive_solver.
    + intros a b Hab Hba. apply queries_by_entry. rewrite H21.
      destruct (decide (v1 = v2));
        rewrite ?entry_update_edge; repeat case_decide; naive_solver.
Qed.

Lemma undirected_add_edge_witness :
  ∃ g', Graph.add_edge (<[2 := {[1 := 5%N]}]> (<[1 := {[2 := 5%N]}]> ∅)) 1 2 9
        = Returns g' ∧
        g' = <[2 := {[1 := 5%N]}]> (<[1 := {[2 := 5%N]}]> ∅).
Proof.
  destruct (undirected_add_edge
              (<[2 := {[1 := 5%N]}]> (<[1 := {[2 := 5%N]}]> ∅)) 1 2 9)
    as (g' & Hg' & Hsame & _).
  - apply symmetric_by_rows. by vm_compute.
  - exists g'. split; [done |]. apply Hsame. by vm_compute.
Defined.

Lemma row_remove_edge g a b x :
  DiGraph.row (DiGraph.remove_edge g a b) x =
  if decide (x = a) then delete b (DiGraph.row g a) else DiGraph.row g x.
Proof.
  unfold DiGraph.remove_edge, DiGraph.row at 1. case_decide as Hx.
  - subst x. by rewrite lookup_insert_eq.
  - by rewrite lookup_insert_ne.
Qed.

Lemma deg_remove_edge_other g a b x :
  x ≠ a → deg (DiGraph.remove_edge g a b) x = deg g x.
Proof. intros Hx. unfold deg. by rewrite row_remove_edge, decide_False. Qed.

Lemma deg_remove_edge_hit g a b :
  is_Some (entry g a b) →
  N.succ (deg (DiGraph.remove_edge g a b) a) = deg g a.
Proof.
  intros Hab. unfold deg. rewrite row_remove_edge, decide_True by done.
  rewrite map_size_delete_Some by done.
  assert (size (DiGraph.row g a) ≠ 0%nat); [| lia].
  apply map_size_non_empty_iff. intros Hemp. unfold entry in Hab.
  rewrite Hemp, lookup_empty in Hab. by destruct Hab.
Qed.

Lemma lookup_Graph_remove_edge g v1 v2 x :
  x ≠ v1 → x ≠ v2 → Graph.remove_edge g v1 v2 !! x = g !! x.
Proof.
  intros H1 H2. unfold Graph.remove_edge, DiGraph.remove_edge.
  by rewrite !lookup_insert_ne.
Qed.

Lemma entry_Graph_remove_edge g v1 v2 a b :
  entry (Graph.remove_edge g v1 v2) a b =
  if decide ((a = v1 ∧ b = v2) ∨ (a = v2 ∧ b = v1)) then None else entry g a b.
Proof.
  unfold Graph.remove_edge. rewrite !entry_remove_edge.
  repeat case_decide; naive_solver.
Qed.

Lemma deg_Graph_remove_edge g u v :
  symmetric g → is_Some (entry g u v) → u ≠ v →
  N.succ (deg (Graph.remove_edge g u v) u) = deg g u ∧
  N.succ (deg (Graph.remove_edge g u v) v) = deg g v ∧
  ∀ x, x ≠ u → x ≠ v → deg (Graph.remove_edge g u v) x = deg g x.
Proof.
  intros Hs Huv Hne. unfold Graph.remove_edge. split_and!.
  - rewrite deg_remove_edge_other by done. by apply deg_remove_edge_hit.
  - rewrite <- (deg_remove_edge_other g u v v) by done.
    apply deg_remove_edge_hit. rewrite entry_remove_edge.
    rewrite decide_False by naive_solver. by rewrite (Hs v u).
  - intros x Hu Hv. by rewrite !deg_remove_edge_other.
Qed.

(** X15: in a graph that stores every edge in both directions, the
    undirected [remove_edge] on an existing edge between two different
    vertices lowers the degree of each end by one, leaves every other
    degree as it is, and removes the edge in both directions. *)
Theorem undirected_remove_edge_degrees (g : graph) (v1 v2 : Z) :
  symmetric g → DiGraph.is_edge g v1 v2 = Returns true → v1 ≠ v2 →
  ∃ d1 d2,
    Graph.degree g v1 = Returns (N.succ d1) ∧
    Graph.degree (Graph.remove_edge g v1 v2) v1 = Returns d1 ∧
    Graph.degree g v2 = Returns (N.succ d2) ∧
    Graph.degree (Graph.remove_edge g v1 v2) v2 = Returns d2 ∧
    (∀ x, x ≠ v1 → x ≠ v2 →
          Graph.degree (Graph.remove_edge g v1 v2) x = Graph.degree g x) ∧
    DiGraph.is_edge (Graph.remove_edge g v1 v2) v1 v2 = Returns false ∧
    DiGraph.is_edge (Graph.remove_edge g v1 v2) v2 v1 = Returns false.
Proof.
  intros Hs H12%is_edge_true Hne.
  destruct (deg_Graph_remove_edge g v1 v2 Hs H12 Hne) as (Hd1 & Hd2 & _).
  exists (deg (Graph.remove_edge g v1 v2) v1), (deg (Graph.remove_edge g v1 v2) v2).
  assert (Hv1 : is_Some (g !! v1)) by (by eapply entry_Some_vertex).
  assert (Hv2 : is_Some (g !! v2)).
  { eapply entry_Some_vertex. by rewrite (Hs v2 v1). }
  assert (Hv1' : is_Some (Graph.remove_edge g v1 v2 !! v1)).
  { unfold Graph.remove_edge. rewrite !vertex_remove_edge. eauto. }
  assert (Hv2' : is_Some (Graph.remove_edge g v1 v2 !! v2))
    by apply is_vertex_remove_edge.
  unfold Graph.degree. rewrite !degree_out_vertex by done.
  split_and!; try (by f_equal).
  - intros x Hx1 Hx2. unfold DiGraph.degree_out, at_.
    by rewrite lookup_Graph_remove_edge.
  - apply is_edge_false. rewrite entry_Graph_remove_edge.
    by rewrite decide_True by naive_solver.
  - apply is_edge_false. rewrite entry_Graph_remove_edge.
    by rewrite decide_True by naive_solver.
Qed.

Lemma undirected_remove_edge_degrees_witness :
  Graph.degree
    (Graph.remove_edge (<[2 := {[1 := 1%N]}]> (<[1 := {[2 := 1%N]}]> ∅)) 1 2) 1
  = Returns 0%N.
Proof.
  destruct (undirected_remove_edge_degrees
              (<[2 := {[1 := 1%N]}]> (<[1 := {[2 := 1%N]}]> ∅)) 1 2)
    as (d1 & d2 & H1 & H1' & _).
  - apply symmetric_by_rows. by vm_compute.
  - by vm_compute.
  - done.
  - rewrite H1'. f_equal.
    assert (Hd : Graph.degree (<[2 := {[1 := 1%N]}]> (<[1 := {[2 := 1%N]}]> ∅)) 1
                 = Returns 1%N) by (by vm_compute).
    rewrite Hd in H1. injection H1 as H1. lia.
Defined.

(** * Further properties of the trail finder *)

(** ** What a call of [find_path] that returns has done *)

Lemma start_is_vertex g s :
  (if first_nonzero (odd_vertices g) =? 0 then front (DiGraph.vertices g)
   else Returns (first_nonzero (odd_vertices g))) = Returns s →
  is_Some (g !! s).
Proof.
  destruct (Z.eqb_spec (first_nonzero (odd_vertices g)) 0) as [|Hnz].
  - unfold front, DiGraph.vertices. destruct (keys g) as [|x l] eqn:Hk; [done |].
    intros [= <-]. apply elem_of_keys. rewrite Hk. left.
  - intros [= <-]. unfold first_nonzero in *.
    destruct (head _) as [x|] eqn:Hhd; [| done]. simpl.
    apply head_filter_elem in Hhd as [_ Hx].
    by apply list_elem_of_filter in Hx as [_ Hx%elem_of_keys].
Qed.

Lemma find_path_Returns fuel g p :
  find_path fuel g = Returns p →
  (num_odd g ≠ 0%nat ∧ num_odd g ≠ 2%nat ∧ p = []) ∨
  ((num_odd g = 0%nat ∨ num_odd g = 2%nat) ∧
   ∃ s g',
     (if first_nonzero (odd_vertices g) =? 0 then front (DiGraph.vertices g)
      else Returns (first_nonzero (odd_vertices g))) = Returns s ∧
     is_Some (g !! s) ∧
     extend_path fuel g [s] = Returns (g', p)).
Proof.
  unfold find_path. rewrite scan_odd_total. simpl.
  destruct (Z.eqb_spec (Z.of_nat (num_odd g)) 0) as [H0|H0];
    [| destruct (Z.eqb_spec (Z.of_nat (num_odd g)) 2) as [H2|H2]]; simpl.
  3: { intros [= <-]. left. split_and!; [lia | lia | done]. }
  all: destruct (if first_nonzero _ =? 0 then _ else _) as [s| | |] eqn:Hs;
    try done; simpl.
  all: destruct (extend_path fuel g [s]) as [[g' q]| | |] eqn:He; try done.
  all: simpl; intros [= <-]; right; split; [lia |].
  all: exists s, g'; split_and!; [done | by apply start_is_vertex | done].
Qed.

Lemma undirected_eq a b c d :
  undirected a b = undirected c d ↔ (a = c ∧ b = d) ∨ (a = d ∧ b = c).
Proof.
  unfold undirected. split.
  - intros [= H1 H2]. lia.
  - intros [[-> ->]|[-> ->]]; f_equal; lia.
Qed.

Lemma elem_of_graph_edges g e :
  e ∈ graph_edges g ↔ ∃ a b, e = (a, b) ∧ a ≤ b ∧ is_Some (entry g a b).
Proof.
  unfold graph_edges. rewrite list_elem_of_bind. split.
  - intros (a & Hin & Ha). apply list_elem_of_bind in Hin as (b & He & Hb).
    apply list_elem_of_singleton in He.
    apply list_elem_of_filter in Hb as [Hle Hb%elem_of_keys]. eauto.
  - intros (a & b & -> & Hle & Hab). exists a.
    split; [| by eapply elem_of_keys, entry_Some_vertex].
    apply list_elem_of_bind. exists b. split; [by apply list_elem_of_singleton |].
    apply list_elem_of_filter. split; [done | by apply elem_of_keys].
Qed.

Lemma undirected_graph_edges g a b :
  symmetric g → undirected a b ∈ graph_edges g ↔ is_Some (entry g a b).
Proof.
  intros Hs. rewrite elem_of_graph_edges. unfold undirected. split.
  - intros (a' & b' & [= <- <-] & _ & Hab).
    destruct (Z.le_ge_cases a b).
    + by rewrite Z.min_l, Z.max_r in Hab by lia.
    + rewrite Z.min_r, Z.max_l in Hab by lia. by rewrite (Hs a b).
  - intros Hab. eexists _, _. split; [done |]. split; [lia |].
    destruct (Z.le_ge_cases a b).
    + by rewrite Z.min_l, Z.max_r by lia.
    + rewrite Z.min_r, Z.max_l by lia. by rewrite (Hs b a).
Qed.

(** The walk of [extend_path], when no neighbour is labelled 0: the vertices
    [q] it appends after the last vertex [u] form a trail of the graph it
    was given, the entries of those edges are what it removes, and it stops
    at a vertex without entries. *)
Lemma extend_path_walk fuel g p u g' p' :
  (∀ a, entry g a 0 = None) →
  last p = Some u → is_Some (g !! u) →
  extend_path fuel g p = Returns (g', p') →
  ∃ q t, p' = p ++ q ∧
         last (u :: q) = Some t ∧ deg g' t = 0%N ∧
         NoDup (trail_edges (u :: q)) ∧
         (∀ e, e ∈ trail_edges (u :: q) →
               ∃ a b, e = undirected a b ∧ is_Some (entry g a b)) ∧
         (∀ a b, entry g' a b =
                 if decide (undirected a b ∈ trail_edges (u :: q)) then None
                 else entry g a b).
Proof.
  revert g p u. induction fuel as [|fuel IH]; intros g p u Hz Hu Hv; [done |].
  destruct (decide (deg g u = 0%N)) as [Hd|Hd].
  - rewrite (extend_path_stop fuel g p u) by done. intros [= <- <-].
    exists [], u. rewrite app_nil_r. simpl. split_and!; try done.
    all: try constructor.
    all: try (intros e He; by apply elem_of_nil in He).
  - rewrite (extend_path_step fuel g p u) by done.
    assert (∃ s, head p = Some s) as [s Hs] by (destruct p; [done | eauto]).
    rewrite (next_vertex_first_other g p u s)
      by (try done; intros He; rewrite Hz in He; by destruct He).
    simpl. set (v := first_other s (keys (DiGraph.row g u))).
    assert (Huv : is_Some (entry g u v)).
    { apply elem_of_keys, first_other_elem;
        [apply keys_NoDup | by apply keys_row_nonempty]. }
    intros Hrun. apply (IH _ _ v) in Hrun
      as (q & t & -> & Hlast & Hdeg & Hnd & Hedges & Hent).
    + exists (v :: q), t. rewrite <- app_assoc.
      change (trail_edges (u :: v :: q))
        with (undirected u v :: trail_edges (v :: q)).
      split_and!; try done.
      * apply NoDup_cons. split; [| done].
        intros (a & b & Heq & Hab)%Hedges.
        rewrite entry_Graph_remove_edge in Hab.
        symmetry in Heq. apply undirected_eq in Heq.
        rewrite decide_True in Hab by done. by destruct Hab.
      * intros e [->|He]%elem_of_cons; [by exists u, v |].
        apply Hedges in He as (a & b & -> & Hab). exists a, b. split; [done |].
        rewrite entry_Graph_remove_edge in Hab.
        case_decide; [by destruct Hab | done].
      * intros a b. rewrite Hent, entry_Graph_remove_edge.
        destruct (decide (undirected a b ∈ trail_edges (v :: q))) as [Hin|Hin].
        { rewrite decide_True; [done | by right]. }
        destruct (decide ((a = u ∧ b = v) ∨ (a = v ∧ b = u))) as [Hab|Hab].
        { rewrite decide_True; [done |]. apply elem_of_cons. left.
          by apply undirected_eq. }
        rewrite decide_False; [done |].
        intros [Heq%undirected_eq|?]%elem_of_cons; done.
    + intros a. by apply entry_Graph_remove_edge_None.
    + apply last_snoc.
    + apply is_vertex_remove_edge.
Qed.

(** X16: on a graph that stores every edge in both directions and in which
    0 labels no vertex and no neighbour, whatever [find_path] returns is a
    trail of the graph: every two consecutive vertices are joined by an edge
    of the graph and no edge is walked twice; so the trail has at most as
    many steps as the graph has edges. *)
Theorem find_path_is_trail (fuel : nat) (g : graph) (p : list Z) :
  symmetric g → zero_free g →
  find_path fuel g = Returns p →
  NoDup (trail_edges p) ∧
  (∀ e, e ∈ trail_edges p → e ∈ graph_edges g) ∧
  (length (trail_edges p) ≤ length (graph_edges g))%nat.
Proof.
  intros Hs [_ Hz] Hp.
  assert (Hnd : NoDup (trail_edges p) ∧
                ∀ e, e ∈ trail_edges p → e ∈ graph_edges g).
  { apply find_path_Returns in Hp
      as [(_ & _ & ->) | (_ & s & g' & _ & Hv & Hrun)].
    { split; [constructor |]. intros e He. by apply elem_of_nil in He. }
    apply (extend_path_walk _ _ _ s) in Hrun
      as (q & t & -> & _ & _ & Hnd & Hedges & _); try done.
    split; [done |]. intros e (a & b & -> & Hab)%Hedges.
    by apply undirected_graph_edges. }
  destruct Hnd as [Hnd Hsub]. split_and!; try done.
  by apply submseteq_length, NoDup_submseteq.
Qed.

Lemma find_path_is_trail_witness :
  NoDup (trail_edges [1; 2; 3; 1]).
Proof.
  destruct (foldlM_apply_op_symmetric
              ((λ e, AddEdge e.1 e.2 1) <$> bowtie) ∅ symmetric_empty)
    as (g & Hg & Hsym).
  assert (Hb : build bowtie = Returns g) by exact Hg.
  clear Hg. vm_compute in Hb. injection Hb as Hb.
  apply (find_path_is_trail 4 g [1; 2; 3; 1]).
  - done.
  - rewrite <- Hb. apply zero_free_by_rows; by vm_compute.
  - by rewrite <- Hb; vm_compute.
Defined.

(** X17: under the same conditions, the walk stops only where nothing is
    left to walk: every edge of the graph at the last vertex of the
    returned trail is one of the edges of the trail. *)
Theorem find_path_stops_exhausted (fuel : nat) (g : graph) (p : list Z)
    (t b : Z) :
  symmetric g → zero_free g →
  find_path fuel g = Returns p →
  last p = Some t →
  DiGraph.is_edge g t b = Returns true →
  undirected t b ∈ trail_edges p.
Proof.
  intros Hs [_ Hz] Hp Ht Htb%is_edge_true.
  apply find_path_Returns in Hp
    as [(_ & _ & ->) | (_ & s & g' & _ & Hv & Hrun)]; [done |].
  apply (extend_path_walk _ _ _ s) in Hrun
    as (q & t' & -> & Hlast & Hdeg & _ & _ & Hent); try done.
  change ([s] ++ q) with (s :: q) in *. rewrite Hlast in Ht.
  injection Ht as ->.
  destruct (decide (undirected t b ∈ trail_edges (s :: q))) as [|Hnot]; [done |].
  exfalso. specialize (Hent t b). rewrite decide_False in Hent by done.
  assert (Hrow : DiGraph.row g' t = ∅).
  { apply map_size_empty_inv. unfold deg in Hdeg. lia. }
  unfold entry at 1 in Hent. rewrite Hrow, lookup_empty in Hent.
  rewrite <- Hent in Htb. by destruct Htb.
Qed.

Lemma find_path_stops_exhausted_witness :
  undirected 1 3 ∈ trail_edges [1; 2; 3; 1].
Proof.
  destruct (foldlM_apply_op_symmetric
              ((λ e, AddEdge e.1 e.2 1) <$> bowtie) ∅ symmetric_empty)
    as (g & Hg & Hsym).
  assert (Hb : build bowtie = Returns g) by exact Hg.
  clear Hg. vm_compute in Hb. injection Hb as Hb.
  apply (find_path_stops_exhausted 4 g [1; 2; 3; 1] 1 3).
  - done.
  - rewrite <- Hb. apply zero_free_by_rows; by vm_compute.
  - by rewrite <- Hb; vm_compute.
  - done.
  - by rewrite <- Hb; vm_compute.
Defined.

(** ** Where the trail ends *)

Lemma odd_deg_odd_vertices g x :
  N.odd (deg g x) = true ↔ x ∈ odd_vertices g.
Proof.
  unfold odd_vertices. rewrite list_elem_of_filter. split; [| naive_solver].
  intros Hodd. split; [done |]. apply elem_of_keys.
  destruct (g !! x) eqn:Hx; [eauto |].
  unfold deg in Hodd. by rewrite (row_None _ _ Hx), map_size_empty in Hodd.
Qed.

Lemma odd_succ_flip (n m : N) : N.succ n = m → N.odd m = negb (N.odd n).
Proof. intros <-. by rewrite N.odd_succ, <- N.negb_odd. Qed.

Lemma ends_odd_step g u v t :
  symmetric g → is_Some (entry g u v) → u ≠ v →
  ends_odd g u t → ends_odd (Graph.remove_edge g u v) v t.
Proof.
  intros Hs Huv Hne Hodd x.
  destruct (deg_Graph_remove_edge g u v Hs Huv Hne) as (Hu & Hv & Hx).
  specialize (Hodd x).
  destruct (decide (x = u)) as [->|Hxu]; [| destruct (decide (x = v)) as [->|Hxv]].
  - rewrite (odd_succ_flip _ _ Hu) in Hodd.
    destruct (N.odd (deg (Graph.remove_edge g u v) u)), (decide (u = t));
      simpl in Hodd; naive_solver.
  - rewrite (odd_succ_flip _ _ Hv) in Hodd.
    destruct (N.odd (deg (Graph.remove_edge g u v) v)), (decide (v = t));
      simpl in Hodd; naive_solver.
  - rewrite Hx by done. naive_solver.
Qed.

Lemma extend_path_end fuel g p u t g' p' :
  symmetric g → loop_free g → (∀ a, entry g a 0 = None) →
  last p = Some u → is_Some (g !! u) → ends_odd g u t →
  extend_path fuel g p = Returns (g', p') →
  last p' = Some t.
Proof.
  revert g p u. induction fuel as [|fuel IH];
    intros g p u Hs Hl Hz Hu Hv Hodd; [done |].
  destruct (decide (deg g u = 0%N)) as [Hd|Hd].
  - rewrite (extend_path_stop fuel g p u) by done. intros [= <- <-].
    rewrite Hu. f_equal. specialize (Hodd u). rewrite Hd in Hodd. simpl in Hodd.
    destruct (decide (u = t)); [done |]. naive_solver.
  - rewrite (extend_path_step fuel g p u) by done.
    assert (∃ s, head p = Some s) as [s Hhd] by (destruct p; [done | eauto]).
    rewrite (next_vertex_first_other g p u s)
      by (try done; intros He; rewrite Hz in He; by destruct He).
    simpl. set (v := first_other s (keys (DiGraph.row g u))).
    assert (Huv : is_Some (entry g u v)).
    { apply elem_of_keys, first_other_elem;
        [apply keys_NoDup | by apply keys_row_nonempty]. }
    assert (Hne : u ≠ v).
    { intros Heq. rewrite <- Heq, Hl in Huv. by destruct Huv. }
    apply (IH _ _ v).
    + by apply symmetric_remove_edge.
    + intros a. by apply entry_Graph_remove_edge_None.
    + intros a. by apply entry_Graph_remove_edge_None.
    + apply last_snoc.
    + apply is_vertex_remove_edge.
    + by apply ends_odd_step.
Qed.

(** X18: take a graph that stores every edge in both directions, joins no
    vertex to itself, and in which 0 labels no vertex and no neighbour.
    When no degree is odd, the trail that [find_path] returns ends where it
    starts; when the odd-degree vertices are [s] and [t], in ascending
    order, it starts at [s] and ends at [t]. *)
Theorem find_path_ends (fuel : nat) (g : graph) (p : list Z) :
  symmetric g → loop_free g → zero_free g →
  find_path fuel g = Returns p →
  (num_odd g = 0%nat → is_Some (head p) ∧ last p = head p) ∧
  (∀ s t, odd_vertices g = [s; t] → head p = Some s ∧ last p = Some t).
Proof.
  intros Hs Hl [Hz0 Hz] Hp.
  apply find_path_Returns in Hp
    as [(H0 & H2 & ->) | (_ & s0 & g' & Hstart & Hv & Hrun)].
  { split; [done |]. intros s t Hst. unfold num_odd in H2. by rewrite Hst in H2. }
  pose proof (extend_path_prefix _ _ _ _ _ Hrun) as [q ->].
  split.
  - intros H0. split; [by eauto |].
    apply (extend_path_end _ _ _ s0 s0) in Hrun; try done.
    intros x. rewrite odd_deg_odd_vertices.
    unfold num_odd in H0. apply nil_length_inv in H0. rewrite H0.
    split; [by intros ?%elem_of_nil | naive_solver].
  - intros s t Hst.
    assert (Hnd : NoDup [s; t]).
    { rewrite <- Hst. unfold odd_vertices. apply NoDup_filter, keys_NoDup. }
    assert (Hs0 : s ≠ 0).
    { intros ->. assert (Hin : 0 ∈ odd_vertices g) by (rewrite Hst; left).
      apply list_elem_of_filter in Hin as [_ Hin%elem_of_keys].
      rewrite Hz0 in Hin. by destruct Hin. }
    unfold first_nonzero in Hstart. rewrite Hst in Hstart.
    rewrite filter_cons_True in Hstart by done. simpl in Hstart.
    rewrite (proj2 (Z.eqb_neq s 0)) in Hstart by done.
    injection Hstart as <-. split; [done |].
    apply (extend_path_end _ _ _ s t) in Hrun; try done.
    intros x. rewrite odd_deg_odd_vertices, Hst.
    apply NoDup_cons in Hnd as [Hst' _]. rewrite not_elem_of_cons in Hst'.
    rewrite !elem_of_cons, elem_of_nil. naive_solver.
Qed.

Lemma find_path_ends_witness :
  ∃ g2 p, build sample2 = Returns g2 ∧ find_path 20 g2 = Returns p ∧
          head p = Some 2 ∧ last p = Some 4.
Proof.
  destruct (foldlM_apply_op_symmetric
              ((λ e, AddEdge e.1 e.2 1) <$> sample2) ∅ symmetric_empty)
    as (g & Hg & Hsym).
  assert (Hb : build sample2 = Returns g) by exact Hg.
  clear Hg. vm_compute in Hb. injection Hb as Hb.
  destruct (find_path 20 g) as [p| | |] eqn:Hp;
    try (rewrite <- Hb in Hp; by vm_compute in Hp).
  destruct (find_path_ends 20 g p) as [_ Hends]; try done.
  - rewrite <- Hb. apply loop_free_by_rows. by vm_compute.
  - rewrite <- Hb. apply zero_free_by_rows; by vm_compute.
  - exists g, p. split; [by rewrite <- Hb; vm_compute |]. split; [done |].
    apply Hends. by rewrite <- Hb; vm_compute.
Defined.

(** ** Outcomes of [find_path] *)

Lemma odd_vertices_empty : odd_vertices ∅ = [].
Proof. done. Qed.

Lemma extend_path_safe fuel g p u :
  last p = Some u → is_Some (g !! u) →
  (∃ r, extend_path fuel g p = Returns r) ∨ extend_path fuel g p = NoFuel.
Proof.
  revert g p u. induction fuel as [|fuel IH]; intros g p u Hu Hv; [by right |].
  destruct (decide (deg g u = 0%N)) as [Hd|Hd].
  - left. rewrite (extend_path_stop fuel g p u) by done. eauto.
  - rewrite (extend_path_step fuel g p u) by done.
    assert (∃ s, head p = Some s) as [s Hs] by (destruct p; [done | eauto]).
    rewrite (next_vertex_total g p u s) by done. simpl.
    apply (IH _ _ _ (last_snoc _ _)), is_vertex_remove_edge.
Qed.

Lemma start_defined g :
  g ≠ ∅ →
  ∃ s, (if first_nonzero (odd_vertices g) =? 0 then front (DiGraph.vertices g)
        else Returns (first_nonzero (odd_vertices g))) = Returns s.
Proof.
  intros Hne. destruct (_ =? 0); [| eauto].
  unfold front, DiGraph.vertices. destruct (keys g) eqn:Hk; [| eauto].
  by apply keys_nil in Hk.
Qed.

(** X19: on a graph with at least one vertex [find_path] neither throws
    nor runs into undefined behaviour: it returns, or it recurses without
    end.  On the graph without vertices, and on no other, its behaviour is
    undefined: there it takes the front of an empty list. *)
Theorem find_path_outcomes (fuel : nat) (g : graph) :
  (find_path fuel g = Undefined ↔ g = ∅) ∧
  (g ≠ ∅ → (∃ p, find_path fuel g = Returns p) ∨ find_path fuel g = NoFuel).
Proof.
  destruct (decide (g = ∅)) as [->|Hne].
  - assert (Hu : find_path fuel ∅ = Undefined).
    { unfold find_path. rewrite scan_odd_total. unfold num_odd.
      by rewrite odd_vertices_empty. }
    rewrite Hu. done.
  - assert (Hok : (∃ p, find_path fuel g = Returns p) ∨ find_path fuel g = NoFuel).
    { unfold find_path. rewrite scan_odd_total. simpl.
      destruct (_ || _); [| by eauto].
      destruct (start_defined g Hne) as [s Hs]. rewrite Hs. simpl.
      destruct (extend_path_safe fuel g [s] s eq_refl (start_is_vertex g s Hs))
        as [[[g' p] ->] | ->]; simpl; eauto. }
    split; [| done]. destruct Hok as [[p ->] | ->]; by split.
Qed.

Lemma find_path_outcomes_witness :
  (∃ p, find_path 1 (<[1 := ∅]> ∅) = Returns p) ∨
  find_path 1 (<[1 := ∅]> ∅) = NoFuel.
Proof.
  apply (find_path_outcomes 1 (<[1 := ∅]> ∅)).
  intros H. apply (f_equal (λ m : graph, m !! 1)) in H.
  by rewrite lookup_insert_eq, lookup_empty in H.
Defined.

(** X20: an empty result always means that the degree test failed: when
    [find_path] returns, the list is empty exactly when the number of
    odd-degree vertices is neither 0 nor 2. *)
Theorem find_path_empty_iff (fuel : nat) (g : graph) (p : list Z) :
  find_path fuel g = Returns p →
  p = [] ↔ num_odd g ≠ 0%nat ∧ num_odd g ≠ 2%nat.
Proof.
  intros Hp. split.
  - intros ->. apply find_path_Returns in Hp
      as [(H0 & H2 & _) | (_ & s & g' & _ & _ & Hrun)]; [done |].
    by apply extend_path_prefix in Hrun as [q Hq].
  - intros [H0 H2]. rewrite (find_path_ineligible fuel g H0 H2) in Hp.
    by injection Hp.
Qed.

Lemma find_path_empty_iff_witness :
  [2; 1; 2] = [] ↔
  num_odd (<[0 := {[1 := 1%N]}]>
             (<[1 := {[0 := 1%N; 2 := 1%N]}]> (<[2 := {[1 := 1%N]}]> ∅))) ≠ 0%nat ∧
  num_odd (<[0 := {[1 := 1%N]}]>
             (<[1 := {[0 := 1%N; 2 := 1%N]}]> (<[2 := {[1 := 1%N]}]> ∅))) ≠ 2%nat.
Proof. apply (find_path_empty_iff 3). by vm_compute. Defined.

(** X21: on a graph without edges that has a vertex, [find_path] returns
    the one-vertex trail made of the first vertex in ascending order. *)
Theorem find_path_no_edges (g : graph) (v0 : Z) (l : list Z) (fuel : nat) :
  (∀ a b, DiGraph.is_edge g a b = Returns false) →
  DiGraph.vertices g = v0 :: l →
  find_path (S fuel) g = Returns [v0].
Proof.
  intros Hno Hvs.
  assert (Hdeg : ∀ x, deg g x = 0%N).
  { intros x. unfold deg. replace (DiGraph.row g x) with (∅ : gmap Z N); [done |].
    symmetry. apply map_eq. intros b. rewrite lookup_empty.
    by apply is_edge_false. }
  assert (Hodd : odd_vertices g = []).
  { unfold odd_vertices. clear Hvs.
    induction (DiGraph.vertices g) as [|x k IH]; [done |].
    rewrite filter_cons_False; [done |]. by rewrite Hdeg. }
  assert (Hv0 : is_Some (g !! v0)).
  { apply elem_of_keys. unfold DiGraph.vertices in Hvs. rewrite Hvs. left. }
  pose proof (extend_path_stop fuel g [v0] v0 eq_refl (Hdeg v0) Hv0) as Hrun.
  revert Hrun. generalize (S fuel). intros n Hrun.
  unfold find_path. rewrite scan_odd_total. unfold num_odd.
  rewrite Hodd, Hvs. simpl. by rewrite Hrun.
Qed.

Lemma find_path_no_edges_witness :
  find_path 1 (<[5 := ∅]> (<[3 := ∅]> ∅)) = Returns [3].
Proof.
  apply (find_path_no_edges _ 3 [5] 0); [| by vm_compute].
  intros a b. apply is_edge_false. unfold entry, DiGraph.row.
  destruct (decide (a = 5)) as [->|H5]; [by rewrite lookup_insert_eq |].
  rewrite lookup_insert_ne by done.
  destruct (decide (a = 3)) as [->|H3]; [by rewrite lookup_insert_eq |].
  by rewrite lookup_insert_ne.
Defined.

(** ** A start vertex whose only neighbour is 0 *)

Lemma extend_path_zero_loop g s fuel p :
  s ≠ 0 → keys (DiGraph.row g s) = [0] → is_Some (g !! s) →
  last p = Some s → head p = Some s →
  extend_path fuel g p = NoFuel.
Proof.
  intros Hs Hnb Hv. revert p. induction fuel as [|fuel IH]; intros p Hl Hh;
    [done |].
  assert (Hd : deg g s ≠ 0%N).
  { unfold deg. rewrite <- keys_length, Hnb. done. }
  rewrite (extend_path_step fuel g p s) by done.
  rewrite (next_vertex_total g p s s) by done. rewrite Hnb.
  rewrite filter_cons_False, filter_nil by naive_solver. simpl.
  assert (Hss : entry g s s = None).
  { apply eq_None_not_Some. intros Hin%elem_of_keys. rewrite Hnb in Hin.
    apply list_elem_of_singleton in Hin. done. }
  unfold Graph.remove_edge.
  rewrite (remove_edge_missing_edge g s s Hv Hss).
  rewrite (remove_edge_missing_edge g s s Hv Hss).
  apply IH; [apply last_snoc |]. by destruct p.
Qed.

(** X22: when two vertices have odd degree and the first of them that is not
    labelled 0, the vertex [s] at which [find_path] starts, has 0 as its
    only neighbour, [find_path] never returns: it takes 0 for "no neighbour
    found", appends the start vertex [s] without removing an edge, and
    recurses from [s] again, without end. *)
Theorem find_path_zero_loop (g : graph) (s : Z) (fuel : nat) :
  num_odd g = 2%nat →
  first_nonzero (odd_vertices g) = s → s ≠ 0 →
  DiGraph.neighbors g s = Returns [0] →
  find_path fuel g = NoFuel.
Proof.
  intros H2 Hfirst Hs Hnb. rewrite neighbors_total in Hnb. injection Hnb as Hnb.
  assert (Hstart : (if first_nonzero (odd_vertices g) =? 0
                    then front (DiGraph.vertices g)
                    else Returns (first_nonzero (odd_vertices g))) = Returns s).
  { rewrite Hfirst. by rewrite (proj2 (Z.eqb_neq s 0)). }
  pose proof (start_is_vertex g s Hstart) as Hv.
  unfold find_path. rewrite scan_odd_total, H2. simpl.
  rewrite Hstart. simpl.
  by rewrite (extend_path_zero_loop g s fuel [s]).
Qed.

Lemma find_path_zero_loop_witness :
  find_path 1000 (<[0 := {[-1 := 1%N]}]> (<[-1 := {[0 := 1%N]}]> ∅)) = NoFuel.
Proof. apply (find_path_zero_loop _ (-1)); by vm_compute. Defined.

(** * Properties of the output *)

Lemma dump_edge_total g v1 os v2 :
  dump_edge g v1 os v2 =
  Returns (os ++ match entry g v1 v2 with
                 | Some w => [Text " "; Int v2; Text "("; Size w; Text ")"]
                 | None => []
                 end).
Proof.
  unfold dump_edge. rewrite is_edge_total, weight_total, found_entry. simpl.
  destruct (entry g v1 v2); simpl; [done |]. by rewrite app_nil_r.
Qed.

Lemma dump_edges_fold g v1 l os :
  foldlM (dump_edge g v1) l os =
  Returns (os ++ (filter (λ v2, is_Some (entry g v1 v2)) l ≫= λ v2,
                    [Text " "; Int v2; Text "(";
                     Size (default 0%N (entry g v1 v2)); Text ")"])).
Proof.
  revert os. induction l as [|v2 l IH]; intros os; simpl.
  - by rewrite app_nil_r.
  - rewrite dump_edge_total. simpl. rewrite IH, filter_cons.
    destruct (entry g v1 v2) as [w|] eqn:He.
    + rewrite decide_True by eauto. simpl. rewrite He. simpl.
      by rewrite <- !app_assoc.
    + rewrite decide_False by (by intros [? ?]). by rewrite app_nil_r.
Qed.

Lemma closed_row_filter g v1 :
  closed g →
  filter (λ v2, is_Some (entry g v1 v2)) (keys g) = keys (DiGraph.row g v1).
Proof.
  intros Hc. apply ascending_unique.
  - apply StronglySorted_lt_filter, keys_strictly_ascending.
  - apply keys_strictly_ascending.
  - intros x. rewrite list_elem_of_filter, !elem_of_keys.
    split; [naive_solver |]. intros Hx. split; [done | by apply (Hc v1)].
Qed.

Lemma dump_row_total g vlist os v1 :
  dump_row g vlist os v1 =
  Returns (os ++ [Int v1; Text ":"] ++
           (filter (λ v2, is_Some (entry g v1 v2)) vlist ≫= λ v2,
              [Text " "; Int v2; Text "(";
               Size (default 0%N (entry g v1 v2)); Text ")"]) ++
           [Endl]).
Proof.
  unfold dump_row. rewrite dump_edges_fold. simpl. by rewrite <- !app_assoc.
Qed.

Lemma foldlM_cons {A B} (f : B → A → outcome B) x l b :
  foldlM f (x :: l) b = (b' ← f b x; foldlM f l b').
Proof. done. Qed.

Lemma dump_rows_fold g vlist l os :
  closed g → vlist = keys g →
  foldlM (dump_row g vlist) l os = Returns (os ++ (l ≫= row_items g)).
Proof.
  intros Hc ->. revert os. induction l as [|v1 l IH]; intros os.
  - simpl. by rewrite app_nil_r.
  - rewrite foldlM_cons, dump_row_total. simpl.
    rewrite IH, closed_row_filter by done. f_equal.
    rewrite <- app_assoc. by f_equal.
Qed.

Lemma dump_rows_Returns g vlist l os :
  ∃ out, foldlM (dump_row g vlist) l os = Returns out.
Proof.
  revert os. induction l as [|v1 l IH]; intros os; [simpl; eauto |].
  rewrite foldlM_cons, dump_row_total. simpl. apply IH.
Qed.

(** X23: [operator<<] never throws.  On a graph in which the ends of all
    edges are vertices it writes the vertex count and then, for every vertex
    in ascending order, the vertex and all its neighbours in ascending
    order, each with the weight of the edge: no edge of the graph is left
    out of the dump. *)
Theorem dump_shows_all_edges (g : graph) (os : list item) :
  ∃ out, dump g os = Returns out ∧
         (closed g →
          out = os ++ [Text "Vertex count: ";
                       Size (N.of_nat (length (DiGraph.vertices g))); Endl]
                   ++ (DiGraph.vertices g ≫= row_items g)).
Proof.
  destruct (dump_rows_Returns g (DiGraph.vertices g) (DiGraph.vertices g)
              (os ++ [Text "Vertex count: ";
                      Size (N.of_nat (length (DiGraph.vertices g))); Endl]))
    as [out Hout].
  exists out. split; [done |]. intros Hc.
  unfold dump in Hout. rewrite dump_rows_fold in Hout by done.
  injection Hout as <-. by rewrite <- app_assoc.
Qed.

Lemma dump_shows_all_edges_witness :
  dump (<[2 := ∅]> (<[1 := {[2 := 7%N]}]> ∅)) []
  = Returns [Text "Vertex count: "; Size 2; Endl;
             Int 1; Text ":"; Text " "; Int 2; Text "("; Size 7; Text ")"; Endl;
             Int 2; Text ":"; Endl].
Proof.
  destruct (dump_shows_all_edges (<[2 := ∅]> (<[1 := {[2 := 7%N]}]> ∅)) [])
    as (out & -> & Hout).
  rewrite Hout; [by vm_compute |]. apply closed_by_rows. by vm_compute.
Defined.

Lemma ints_app os1 os2 : ints (os1 ++ os2) = ints os1 ++ ints os2.
Proof. unfold ints. apply bind_app. Qed.

Lemma print_fold_ints p os :
  ints (fold_left (λ o v, o ++ [Text " "; Int v]) p os) = ints os ++ p.
Proof.
  revert os. induction p as [|v p IH]; intros os; simpl.
  - by rewrite app_nil_r.
  - rewrite IH, ints_app. simpl. by rewrite <- app_assoc.
Qed.

Lemma print_fold_none p os :
  Text "none." ∈ fold_left (λ o v, o ++ [Text " "; Int v]) p os →
  Text "none." ∈ os.
Proof.
  revert os. induction p as [|v p IH]; intros os; simpl; [done |].
  intros Hin%IH. apply elem_of_app in Hin as [|Hin]; [done |].
  apply elem_of_cons in Hin as [Heq|Hin]; [done |].
  apply elem_of_cons in Hin as [Heq|Hin]; [done |].
  by apply elem_of_nil in Hin.
Qed.

(** X24: [print_path] writes the vertices of the list it is given, in
    order and each once, after what the stream held, and it writes [none.]
    exactly when the list is empty. *)
Theorem print_path_shows_trail (p : list Z) (os : list item) :
  ints (print_path p os) = ints os ++ p ∧
  (Text "none." ∈ print_path p os ↔ p = [] ∨ Text "none." ∈ os).
Proof.
  unfold print_path. destruct p as [|v p].
  - split; [simpl; by rewrite !ints_app, !app_nil_r |].
    split; [by left |]. intros _. simpl.
    rewrite !elem_of_app. left. right. left.
  - replace (negb (N.of_nat (length (v :: p)) =? 0)%N) with true
      by (simpl; by destruct (length p)).
    split.
    + rewrite ints_app, print_fold_ints, ints_app. simpl.
      by rewrite !app_nil_r.
    + split.
      * intros Hin. right.
        apply elem_of_app in Hin as [Hin|Hin].
        -- apply print_fold_none in Hin.
           apply elem_of_app in Hin as [Hin|Hin]; [done |].
           apply elem_of_cons in Hin as [Heq|Hin]; [done |].
           by apply elem_of_nil in Hin.
        -- apply elem_of_cons in Hin as [Heq|Hin]; [done |].
           by apply elem_of_nil in Hin.
      * intros [Hnil|Hin]; [done |].
        apply elem_of_app. left.
        assert (Hmono : ∀ q o, Text "none." ∈ o →
                  Text "none." ∈ fold_left (λ o v, o ++ [Text " "; Int v]) q o).
        { induction q as [|x q IH]; intros o Ho; [done |]. simpl.
          apply IH, elem_of_app. by left. }
        apply Hmono, elem_of_app. by left.
Qed.

(** * More on the undirected mutators *)

(** X25: after the undirected [update_edge(v1, v2, w)] the edge exists in
    both directions with weight [w], whatever was stored before; no other
    edge or weight changes and no vertex is lost. *)
Theorem undirected_update_edge (g : graph) (v1 v2 : Z) (w : N) :
  DiGraph.is_edge (Graph.update_edge g v1 v2 w) v1 v2 = Returns true ∧
  DiGraph.is_edge (Graph.update_edge g v1 v2 w) v2 v1 = Returns true ∧
  DiGraph.weight (Graph.update_edge g v1 v2 w) v1 v2 = Returns w ∧
  DiGraph.weight (Graph.update_edge g v1 v2 w) v2 v1 = Returns w ∧
  (∀ a b, (a, b) ≠ (v1, v2) → (a, b) ≠ (v2, v1) →
     DiGraph.is_edge (Graph.update_edge g v1 v2 w) a b = DiGraph.is_edge g a b ∧
     DiGraph.weight (Graph.update_edge g v1 v2 w) a b = DiGraph.weight g a b) ∧
  (∀ a, DiGraph.is_vertex g a = true →
        DiGraph.is_vertex (Graph.update_edge g v1 v2 w) a = true).
Proof.
  assert (He : ∀ a b, entry (Graph.update_edge g v1 v2 w) a b =
                      if decide ((a = v1 ∧ b = v2) ∨ (a = v2 ∧ b = v1))
                      then Some w else entry g a b).
  { intros a b. unfold Graph.update_edge. rewrite !entry_update_edge.
    repeat case_decide; naive_solver. }
  split_and!.
  - apply is_edge_true. rewrite He, decide_True by naive_solver. eauto.
  - apply is_edge_true. rewrite He, decide_True by naive_solver. eauto.
  - by rewrite weight_total, He, decide_True by naive_solver.
  - by rewrite weight_total, He, decide_True by naive_solver.
  - intros a b H12 H21. apply queries_by_entry. rewrite He.
    rewrite decide_False; [done | naive_solver].
  - intros a Ha%is_vertex_true. apply is_vertex_true.
    unfold Graph.update_edge. rewrite !vertex_update_edge. eauto.
Qed.

(** X26: after the undirected [remove_edge(v1, v2)] the edge is gone in
    both directions; no other edge or weight changes and no vertex is
    lost. *)
Theorem undirected_remove_edge (g : graph) (v1 v2 : Z) :
  DiGraph.is_edge (Graph.remove_edge g v1 v2) v1 v2 = Returns false ∧
  DiGraph.is_edge (Graph.remove_edge g v1 v2) v2 v1 = Returns false ∧
  (∀ a b, (a, b) ≠ (v1, v2) → (a, b) ≠ (v2, v1) →
     DiGraph.is_edge (Graph.remove_edge g v1 v2) a b = DiGraph.is_edge g a b ∧
     DiGraph.weight (Graph.remove_edge g v1 v2) a b = DiGraph.weight g a b) ∧
  (∀ a, DiGraph.is_vertex g a = true →
        DiGraph.is_vertex (Graph.remove_edge g v1 v2) a = true).
Proof.
  split_and!.
  - apply is_edge_false. rewrite entry_Graph_remove_edge.
    by rewrite decide_True by naive_solver.
  - apply is_edge_false. rewrite entry_Graph_remove_edge.
    by rewrite decide_True by naive_solver.
  - intros a b H12 H21. apply queries_by_entry. rewrite entry_Graph_remove_edge.
    rewrite decide_False; [done | naive_solver].
  - intros a Ha%is_vertex_true. apply is_vertex_true.
    unfold Graph.remove_edge. rewrite !vertex_remove_edge. eauto.
Qed.

(** * Depth of the recursion *)

Lemma NoDup_graph_edges g : NoDup (graph_edges g).
Proof.
  unfold graph_edges. apply NoDup_bind; [| | apply keys_NoDup].
  - intros a1 a2 e _ _ (b1 & ->%list_elem_of_singleton & _)%list_elem_of_bind
      (b2 & [= -> _]%list_elem_of_singleton & _)%list_elem_of_bind. done.
  - intros a _. apply NoDup_bind.
    + intros b1 b2 e _ _ ->%list_elem_of_singleton
        [= ->]%list_elem_of_singleton. done.
    + intros b _. apply NoDup_singleton.
    + apply NoDup_filter, keys_NoDup.
Qed.

Lemma graph_edges_remove_edge g u v :
  symmetric g → is_Some (entry g u v) →
  (length (graph_edges (Graph.remove_edge g u v)) < length (graph_edges g))%nat.
Proof.
  intros Hs Huv.
  pose proof (symmetric_remove_edge g u v Hs) as Hs'.
  assert (Hnot : undirected u v ∉ graph_edges (Graph.remove_edge g u v)).
  { rewrite undirected_graph_edges by done. rewrite entry_Graph_remove_edge.
    rewrite decide_True by naive_solver. by intros [? ?]. }
  assert (Hle : (length (undirected u v :: graph_edges (Graph.remove_edge g u v))
                 ≤ length (graph_edges g))%nat).
  { apply submseteq_length, NoDup_submseteq.
    - apply NoDup_cons. split; [done | apply NoDup_graph_edges].
    - intros e [->|He]%elem_of_cons; [by apply undirected_graph_edges |].
      apply elem_of_graph_edges in He as (a & b & -> & Hab & Hsome).
      apply elem_of_graph_edges. exists a, b. split_and!; try done.
      rewrite entry_Graph_remove_edge in Hsome.
      case_decide; [by destruct Hsome | done]. }
  simpl in Hle. lia.
Qed.

Lemma extend_path_returns_edges fuel g p u :
  symmetric g → (∀ a, entry g a 0 = None) →
  (length (graph_edges g) < fuel)%nat →
  last p = Some u → is_Some (g !! u) →
  ∃ r, extend_path fuel g p = Returns r.
Proof.
  revert g p u. induction fuel as [|fuel IH];
    intros g p u Hs Hz Hfuel Hu Hv; [lia |].
  destruct (decide (deg g u = 0%N)) as [Hd|Hd].
  - rewrite (extend_path_stop fuel g p u) by done. eauto.
  - rewrite (extend_path_step fuel g p u) by done.
    assert (∃ s, head p = Some s) as [s Hhd] by (destruct p; [done | eauto]).
    rewrite (next_vertex_first_other g p u s)
      by (try done; intros He; rewrite Hz in He; by destruct He).
    simpl. set (v := first_other s (keys (DiGraph.row g u))).
    assert (Huv : is_Some (entry g u v)).
    { apply elem_of_keys, first_other_elem;
        [apply keys_NoDup | by apply keys_row_nonempty]. }
    apply (IH _ _ v).
    + by apply symmetric_remove_edge.
    + intros a. by apply entry_Graph_remove_edge_None.
    + pose proof (graph_edges_remove_edge g u v Hs Huv). lia.
    + apply last_snoc.
    + apply is_vertex_remove_edge.
Qed.

(** X27: on a graph with a vertex that stores every edge in both directions
    and in which 0 labels no vertex and no neighbour, [find_path] returns,
    and the recursion of [extend_path] is at most one call deeper than the
    graph has edges. *)
Theorem find_path_depth (g : graph) :
  symmetric g → zero_free g → g ≠ ∅ →
  ∃ p, ∀ k, find_path (S (length (graph_edges g)) + k) g = Returns p.
Proof.
  intros Hs [_ Hz] Hne.
  destruct (start_defined g Hne) as [s Hstart].
  pose proof (start_is_vertex g s Hstart) as Hv.
  destruct (extend_path_returns_edges (S (length (graph_edges g))) g [s] s)
    as [[g' q] Hq]; [done | done | lia | done | done |].
  destruct ((Z.of_nat (num_odd g) =? 0) || (Z.of_nat (num_odd g) =? 2)) eqn:Hel.
  - exists q. intros k.
    pose proof (extend_path_fuel_le (S (length (graph_edges g)))
                  (S (length (graph_edges g)) + k) _ _ _ ltac:(lia) Hq) as Hk.
    revert Hk. generalize (S (length (graph_edges g)) + k)%nat. intros n Hk.
    unfold find_path. rewrite scan_odd_total. simpl.
    rewrite Hel, Hstart. simpl. by rewrite Hk.
  - exists []. intros k. unfold find_path. rewrite scan_odd_total. simpl.
    by rewrite Hel.
Qed.

Lemma find_path_depth_witness :
  ∃ g1 p, build sample1 = Returns g1 ∧ find_path 13 g1 = Returns p.
Proof.
  destruct (foldlM_apply_op_symmetric
              ((λ e, AddEdge e.1 e.2 1) <$> sample1) ∅ symmetric_empty)
    as (g & Hg & Hsym).
  assert (Hb : build sample1 = Returns g) by exact Hg.
  clear Hg. vm_compute in Hb. injection Hb as Hb.
  destruct (find_path_depth g) as [p Hp].
  - done.
  - rewrite <- Hb. apply zero_free_by_rows; by vm_compute.
  - rewrite <- Hb. by vm_compute.
  - exists g, p. split; [by rewrite <- Hb; vm_compute |].
    specialize (Hp 0%nat).
    replace (S (length (graph_edges g)) + 0)%nat with 13%nat in Hp; [done |].
    rewrite <- Hb. by vm_compute.
Defined.
